(** * JSON Tree Visualizer: the tree, layout and path-query engine of [src/App.jsx]

    The development embeds the engine functions of the visualizer
    ([detectType], [buildTree], [computeWidths], [layoutTree], [mapToFlow],
    [parsePath], [findByPath]) and the two handlers that drive them
    ([generate], [onSearch]) and proves the properties stated for them.

    Conventions of the embedding:
    - a parsed document is a [json] value; an object is the list of its own
      enumerable properties in [Object.keys] order, an array the list of its
      elements;
    - numbers of the document are carried as integers: the engine never
      computes with them, it only prints them in labels and tests the
      document for being falsy;
    - a string is a sequence of code units below 256;
    - the node objects that [buildTree] allocates and mutates through the
      work stack live in an explicit heap, addressed by allocation order;
    - [while] loops run on fuel; each loop comes with a lemma showing that
      the fuel it is started with lets it reach its exit condition. *)

From Stdlib Require Import ZArith Ascii String List Lia.
From stdpp Require Import base tactics option list strings pretty.

Open Scope string_scope.
Open Scope Z_scope.
Open Scope list_scope.
Open Scope stdpp_scope.

(** ** Built-in operations of the host language

    The string and number built-ins the engine calls, over code units
    below 256. *)

Module JS.

(** White space and line terminators removed by [trim] and skipped by the
    string-to-number conversion. *)
Definition is_white (c : ascii) : bool :=
  let n := nat_of_ascii c in
  ((9 <=? n) && (n <=? 13) || (n =? 32) || (n =? 160))%nat.

Fixpoint trimStart (s : string) : string :=
  match s with
  | String c s' => if is_white c then trimStart s' else s
  | EmptyString => s
  end.

Definition trim (s : string) : string :=
  String.rev (trimStart (String.rev (trimStart s))).

Definition startsWith (s p : string) : bool := String.prefix p s.

(** [s.slice(from)] and [s.slice(from, to)] for indices within the string. *)
Definition slice_from (s : string) (from : nat) : string :=
  String.substring from (String.length s - from) s.

Definition slice (s : string) (from to : nat) : string :=
  String.substring from (to - from) s.

(** [s.indexOf(p, from)]; [None] is the source's [-1]. *)
Definition indexOf (s p : string) (from : nat) : option nat :=
  String.index from p s.

(** *** String to number

    [Number_integer s] is [Some z] when [Number.isInteger(Number(s))]
    holds, [z] being the value of [Number(s)], and [None] otherwise (a
    fraction, an infinity or NaN). The literal grammar is that of the
    language: optional white space around an empty string, a
    binary, octal or hexadecimal integer, or a signed decimal with
    optional fraction and exponent, or a signed [Infinity]. *)

Definition digit (base : Z) (c : ascii) : option Z :=
  let n := Z.of_nat (nat_of_ascii c) in
  let d := if (48 <=? n) && (n <=? 57) then n - 48
           else if (97 <=? n) && (n <=? 102) then n - 87
           else if (65 <=? n) && (n <=? 70) then n - 55
           else base in
  if d <? base then Some d else None.

(** The value of a string of digits, most significant first. *)
Fixpoint digits (base : Z) (acc : Z) (s : string) : option Z :=
  match s with
  | EmptyString => Some acc
  | String c s' =>
      match digit base c with
      | Some d => digits base (base * acc + d) s'
      | None => None
      end
  end.

(** The longest prefix of decimal digits, and the rest. *)
Fixpoint span_digits (s : string) : string * string :=
  match s with
  | String c s' =>
      match digit 10 c with
      | Some _ => let '(ds, rest) := span_digits s' in (String c ds, rest)
      | None => (EmptyString, s)
      end
  | EmptyString => (EmptyString, EmptyString)
  end.

Definition unsign (s : string) : bool * string :=
  match s with
  | String "+" s' => (false, s')
  | String "-" s' => (true, s')
  | _ => (false, s)
  end.

(** Round to nearest, ties to even, of the quotient [n / d]. *)
Definition round_half_even (n d : Z) : Z :=
  let q := n / d in
  let r := n mod d in
  match 2 * r ?= d with
  | Lt => q
  | Gt => q + 1
  | Eq => if Z.even q then q else q + 1
  end.

(** The binary64 number nearest to the positive rational [n / d], as a
    significand [m] and an exponent [p] with value [m * 2^p]; [None] when
    the rounding overflows to infinity. *)
Definition to_double (n d : Z) : option (Z * Z) :=
  let e0 := Z.log2 n - Z.log2 d in
  let below := if 0 <=? e0 then n <? d * 2 ^ e0 else n * 2 ^ (- e0) <? d in
  let e := if below then e0 - 1 else e0 in
  let p := Z.max e (-1022) - 52 in
  let m := if 0 <=? p then round_half_even n (d * 2 ^ p)
           else round_half_even (n * 2 ^ (- p)) d in
  if (0 <=? p) && (2 ^ 1024 <=? m * 2 ^ p) then None else Some (m, p).

(** The integer that the decimal [mant * 10^exp10] rounds to, if its
    binary64 value is an integer. *)
Definition decimal_integer (mant exp10 : Z) : option Z :=
  if mant =? 0 then Some 0
  else
    let n := mant * 10 ^ Z.max exp10 0 in
    let d := 10 ^ Z.max (- exp10) 0 in
    match to_double n d with
    | None => None
    | Some (m, p) =>
        if 0 <=? p then Some (m * 2 ^ p)
        else if m mod 2 ^ (- p) =? 0 then Some (m / 2 ^ (- p))
        else None
    end.

Definition exponent_part (s : string) : option Z :=
  match s with
  | EmptyString => Some 0
  | String c s' =>
      if (Ascii.eqb c "e" || Ascii.eqb c "E")%char then
        let '(neg, ds) := unsign s' in
        match ds with
        | EmptyString => None
        | _ => (fun e => if neg then - e else e) <$> digits 10 0 ds
        end
      else None
  end.

Definition unsigned_decimal (s : string) : option Z :=
  let '(ip, r1) := span_digits s in
  let '(dot, (fp, r2)) :=
    match r1 with
    | String "." r => (true, span_digits r)
    | _ => (false, (EmptyString, r1))
    end in
  match ip, fp with
  | EmptyString, EmptyString => None
  | _, _ =>
      match digits 10 0 (ip +:+ fp), exponent_part r2 with
      | Some mant, Some e =>
          decimal_integer mant (e - Z.of_nat (String.length fp))
      | _, _ => None
      end
  end.

Definition radix_literal (s : string) : option (Z * string) :=
  match s with
  | String "0" (String c ds) =>
      if (Ascii.eqb c "x" || Ascii.eqb c "X")%char then Some (16, ds)
      else if (Ascii.eqb c "o" || Ascii.eqb c "O")%char then Some (8, ds)
      else if (Ascii.eqb c "b" || Ascii.eqb c "B")%char then Some (2, ds)
      else None
  | _ => None
  end.

Definition Number_integer (s : string) : option Z :=
  let s := trim s in
  match s with
  | EmptyString => Some 0
  | _ =>
      match radix_literal s with
      | Some (base, ds) =>
          match ds with
          | EmptyString => None
          | _ => digits base 0 ds ≫= fun n => decimal_integer n 0
          end
      | None =>
          let '(neg, u) := unsign s in
          (fun z => if neg then - z else z) <$> unsigned_decimal u
      end
  end.

End JS.


(** ** The document model *)

#[local] Unset Elimination Schemes.

Inductive json : Type :=
| JNull
| JBool (b : bool)
| JNum (n : Z)
| JStr (s : string)
| JArr (items : list json)
| JObj (props : list (string * json)).

(** [Object.keys(o)] and the property read [o[k]] on the property list. *)
Definition keys (props : list (string * json)) : list string := props.*1.

Fixpoint own (props : list (string * json)) (k : string) : option json :=
  match props with
  | [] => None
  | (k', v) :: rest => if String.eqb k' k then Some v else own rest k
  end.

(** A property read on a document object. A missing property reads
    [undefined] in the source; the engine only reads keys it took from
    [Object.keys] of the same object, or checked with [in]. *)
Definition prop (props : list (string * json)) (k : string) : json :=
  default JNull (own props k).

(** Documents produced by [JSON.parse]: property names of one object are
    pairwise distinct. *)
Fixpoint wf_json (v : json) : Prop :=
  match v with
  | JArr items => (fix all (l : list json) : Prop :=
                     match l with
                     | [] => True
                     | x :: l' => wf_json x /\ all l'
                     end) items
  | JObj props => NoDup (keys props) /\
                  (fix all (l : list (string * json)) : Prop :=
                     match l with
                     | [] => True
                     | kv :: l' => wf_json (snd kv) /\ all l'
                     end) props
  | _ => True
  end.

(** ** detectType *)

Inductive kind : Type := KObject | KArray | KPrimitive.

Definition detectType (v : json) : kind :=
  match v with
  | JArr _ => KArray
  | JObj _ => KObject
  | _ => KPrimitive
  end.

Definition kind_eqb (a b : kind) : bool :=
  match a, b with
  | KObject, KObject | KArray, KArray | KPrimitive, KPrimitive => true
  | _, _ => false
  end.

(** ** Tree nodes

    The node objects of the source gain fields as the passes run:
    [buildTree] creates [id], [key], [type], [value] and [children],
    [computeWidths] adds [width], [layoutTree] adds [position]. The fields
    added by the passes are the annotation [ann] of the node. *)

Inductive tree (A : Type) : Type :=
  Node { id : string; key : string; type : kind; value : json;
         ann : A; children : list (tree A) }.
#[local] Set Elimination Schemes.

Arguments Node {A} _ _ _ _ _ _.
Arguments id {A} _.
Arguments key {A} _.
Arguments type {A} _.
Arguments value {A} _.
Arguments ann {A} _.
Arguments children {A} _.

(** All nodes of a tree, the node itself first. *)
Fixpoint nodes_of {A} (t : tree A) : list (tree A) :=
  t :: (fix go (cs : list (tree A)) : list (tree A) :=
          match cs with
          | [] => []
          | c :: cs' => nodes_of c ++ go cs'
          end) (children t).

(** ** buildTree

    A heap cell is a node object under construction; [c_children] holds
    the addresses of the child objects pushed so far. *)

Record cell : Type := Cell {
  c_id : string; c_key : string; c_type : kind; c_value : json;
  c_children : list nat }.

Abbreviation heap := (list cell).

(** A stack entry [[node, value, path]]; the top of the stack is the head
    of the list. *)
Definition entry : Type := (nat * json * string)%type.

(** [children.push] of the objects at [addrs] on a node object. *)
Definition push_children (addrs : list nat) (c : cell) : cell :=
  Cell (c_id c) (c_key c) (c_type c) (c_value c) (c_children c ++ addrs).

(** [node.children.push(child)] for a freshly allocated [child], followed by
    the conditional [stack.push]. *)
Definition add_child (node : nat) (child : cell) (st : heap * list entry)
  : heap * list entry :=
  let '(h, stack) := st in
  let a := length h in
  let h1 := h ++ [child] in
  let h2 := alter (push_children [a]) node h1 in
  (h2, if kind_eqb (c_type child) KPrimitive then stack
       else (a, c_value child, c_id child) :: stack).

(** The two [forEach] bodies. *)
Definition object_child (props : list (string * json)) (path : string)
  (k : string) : cell :=
  let childVal := prop props k in
  let childPath := path +:+ "." +:+ k in
  Cell childPath k (detectType childVal) childVal [].

Definition array_child (path : string) (i : nat) (v : json) : cell :=
  let childPath := path +:+ "[" +:+ pretty i +:+ "]" in
  Cell childPath (pretty i) (detectType v) v [].

(** One iteration of the [while] loop, after the [stack.pop()]. *)
Definition expand_entry (e : entry) (st : heap * list entry)
  : heap * list entry :=
  let '(node, value, path) := e in
  match c_type <$> (st.1 !! node), value with
  | Some KObject, JObj props =>
      fold_left (fun st k => add_child node (object_child props path k) st)
                (keys props) st
  | Some KArray, JArr items =>
      fold_left (fun st iv => add_child node (array_child path iv.1 iv.2) st)
                (imap pair items) st
  | _, _ => st
  end.

Fixpoint buildTree_loop (fuel : nat) (st : heap * list entry)
  : heap * list entry :=
  match fuel with
  | O => st
  | S fuel' =>
      match st.2 with
      | [] => st
      | e :: stack => buildTree_loop fuel' (expand_entry e (st.1, stack))
      end
  end.

(** The number of object and array values inside a document: the number of
    entries the work stack of [buildTree] can ever hold. *)
Fixpoint containers (v : json) : nat :=
  match v with
  | JArr items => S ((fix sum (l : list json) : nat :=
                        match l with
                        | [] => O
                        | x :: l' => (containers x + sum l')%nat
                        end) items)
  | JObj props => S ((fix sum (l : list (string * json)) : nat :=
                        match l with
                        | [] => O
                        | kv :: l' => (containers (snd kv) + sum l')%nat
                        end) props)
  | _ => O
  end.

(** The root object, with the single-key collapse. *)
Definition root_cell (data : json) (rootKey : string) : cell :=
  let root := Cell "$" rootKey (detectType data) data [] in
  match c_type root, data with
  | KObject, JObj props =>
      match keys props with
      | [k] => let v := prop props k in
               Cell ("$." +:+ k) k (detectType v) v []
      | _ => root
      end
  | _, _ => root
  end.

(** The tree that a heap address denotes. Child objects are allocated after
    their parent, so [length h] levels reach every node of the heap. *)
Fixpoint readback (fuel : nat) (h : heap) (a : nat) : tree unit :=
  match h !! a, fuel with
  | Some c, S fuel' =>
      Node (c_id c) (c_key c) (c_type c) (c_value c) tt
           (readback fuel' h <$> c_children c)
  | Some c, O => Node (c_id c) (c_key c) (c_type c) (c_value c) tt []
  | None, _ => Node "" "" KPrimitive JNull tt []
  end.

Definition buildTree_heap (data : json) (rootKey : string)
  : heap * list entry :=
  let root := root_cell data rootKey in
  let baseValue := c_value root in
  let basePath := c_id root in
  buildTree_loop (S (containers baseValue)) ([root], [(0%nat, baseValue, basePath)]).

Definition buildTree (data : json) (rootKey : string) : tree unit :=
  let h := (buildTree_heap data rootKey).1 in
  readback (length h) h 0.

(** The subtree of a value by structural recursion: what the loop of
    [buildTree] is shown to construct below a node with the given [id] and
    [key]. *)
Fixpoint subtree (path key : string) (v : json) : tree unit :=
  Node path key (detectType v) v tt
    match v with
    | JObj props =>
        (fix go (l : list (string * json)) : list (tree unit) :=
           match l with
           | [] => []
           | kv :: l' =>
               subtree (path +:+ "." +:+ fst kv) (fst kv) (snd kv) :: go l'
           end) props
    | JArr items =>
        (fix go (i : nat) (l : list json) : list (tree unit) :=
           match l with
           | [] => []
           | x :: l' =>
               subtree (path +:+ "[" +:+ pretty i +:+ "]") (pretty i) x
               :: go (S i) l'
           end) 0%nat items
    | _ => []
    end.

(** ** computeWidths *)

Definition width (node : tree Z) : Z := ann node.

Fixpoint computeWidths (node : tree unit) : tree Z :=
  let cs := computeWidths <$> children node in
  let w := match cs with
           | [] => 1
           | _ => Z.max 1 (fold_left (fun sum c => sum + width c) cs 0)
           end in
  Node (id node) (key node) (type node) (value node) w cs.

(** ** layoutTree *)

Definition H_GAP : Z := 200.
Definition V_GAP : Z := 110.

Record point : Type := Point { pos_x : Z; pos_y : Z }.

Record placed : Type := Placed { p_width : Z; position : point }.

(** The quotient by two is exact whenever [xGap] is even, as [H_GAP] is. *)
Fixpoint layoutTree (node : tree Z) (xStart depth xGap yGap : Z)
  : tree placed :=
  let center := xStart + (width node * xGap) / 2 in
  Node (id node) (key node) (type node) (value node)
       (Placed (width node) (Point center (depth * yGap)))
       ((fix each (cs : list (tree Z)) (cursor : Z) : list (tree placed) :=
           match cs with
           | [] => []
           | c :: cs' =>
               layoutTree c cursor (depth + 1) xGap yGap
               :: each cs' (cursor + width c * xGap)
           end) (children node) xStart).

(** ** mapToFlow *)

Record palette : Type := Palette {
  object : string; array : string; primitive : string; highlight : string }.

Definition NODE_COLORS : palette :=
  Palette "#6C63FF" "#27AE60" "#F39C12" "#FF3B30".

Definition pick (colors : palette) (t : kind) : string :=
  match t with
  | KObject => object colors
  | KArray => array colors
  | KPrimitive => primitive colors
  end.

Record style : Type := Style {
  padding : Z; borderRadius : Z; fontSize : Z; color : string;
  background : string; border : string; boxShadow : string }.

Record flow_node : Type := FlowNode {
  n_id : string; n_position : point; label : string; tooltip : string;
  n_style : style; sourcePosition : string; targetPosition : string }.

Record flow_edge : Type := FlowEdge {
  e_id : string; source : string; target : string;
  e_type : string; animated : bool }.

(** [String(v)] on a document value. A number prints in decimal notation, as
    the source prints the integers below [10^21]. *)
Fixpoint to_String (v : json) : string :=
  match v with
  | JNull => "null"
  | JBool b => if b then "true" else "false"
  | JNum n => pretty n
  | JStr s => s
  | JArr items =>
      (fix join (l : list json) : string :=
         match l with
         | [] => ""
         | x :: l' =>
             (match x with JNull => "" | _ => to_String x end)
             +:+ (match l' with [] => "" | _ => "," +:+ join l' end)
         end) items
  | JObj _ => "[object Object]"
  end.

(** The one-character string holding a double quote. *)
Definition dquote : string := String (ascii_of_nat 34) "".

Definition truthy (s : string) : bool :=
  match s with EmptyString => false | _ => true end.

Definition labelFor {A} (n : tree A) : string :=
  match type n with
  | KPrimitive =>
      let v := match value n with
               | JNull => "null"
               | JStr s => dquote +:+ s +:+ dquote
               | other => to_String other
               end in
      if truthy (key n) then key n +:+ ": " +:+ v else v
  | KObject => if truthy (key n) then key n else "object"
  | KArray => if truthy (key n) then key n else "array"
  end.

Definition is_highlight (i : string) (highlightId : option string) : bool :=
  match highlightId with
  | Some h => String.eqb i h
  | None => false
  end.

Definition colorFor {A} (colors : palette) (highlightId : option string)
  (n : tree A) : string :=
  if is_highlight (id n) highlightId then highlight colors
  else pick colors (type n).

Definition flow_node_of (colors : palette) (highlightId : option string)
  (n : tree placed) : flow_node :=
  FlowNode (id n) (position (ann n)) (labelFor n)
    (id n +:+ " => " +:+ labelFor n)
    (Style 10 16 12 "#fff" (colorFor colors highlightId n)
       ("2px solid " +:+ (if is_highlight (id n) highlightId then "#b00000"
                          else "rgba(0,0,0,0.18)"))
       "0 6px 16px rgba(0,0,0,0.12)")
    "bottom" "top".

Definition flow_edge_of {A} (n c : tree A) : flow_edge :=
  FlowEdge (id n +:+ "->" +:+ id c) (id n) (id c) "smoothstep" false.

Record graph : Type := Graph { nodes : list flow_node; edges : list flow_edge }.

(** The state of the traversal loop: the work stack (top at the head) and
    the two output arrays. *)
Definition flow_state : Type :=
  (list (tree placed) * list flow_node * list flow_edge)%type.

Definition visit (colors : palette) (highlightId : option string)
  (n : tree placed) (st : flow_state) : flow_state :=
  let '(stack, ns, es) := st in
  fold_left (fun st c => let '(stack, ns, es) := st in
                         (c :: stack, ns, es ++ [flow_edge_of n c]))
            (children n)
            (stack, ns ++ [flow_node_of colors highlightId n], es).

Fixpoint mapToFlow_loop (colors : palette) (highlightId : option string)
  (fuel : nat) (st : flow_state) : flow_state :=
  match fuel with
  | O => st
  | S fuel' =>
      match st with
      | ([], _, _) => st
      | (n :: stack, ns, es) =>
          mapToFlow_loop colors highlightId fuel'
                         (visit colors highlightId n (stack, ns, es))
      end
  end.

Definition mapToFlow (node : tree placed) (colors : palette)
  (highlightId : option string) : graph :=
  let '(_, ns, es) :=
    mapToFlow_loop colors highlightId (length (nodes_of node))
                   ([node], [], []) in
  Graph ns es.

(** ** parsePath *)

Inductive token : Type :=
| TKey (k : string)
| TIdx (n : Z).

(** [if (buf) { tokens.push(buf); buf = '' }], the new [tokens]. *)
Definition flush (tokens : list token) (buf : string) : list token :=
  if truthy buf then tokens ++ [TKey buf] else tokens.

(** The [for] loop over the characters of [s], from index [i]. *)
Fixpoint parsePath_loop (fuel : nat) (s : string) (i : nat)
  (tokens : list token) (buf : string) : list token :=
  match fuel, String.get i s with
  | S fuel', Some ch =>
      if Ascii.eqb ch "." then
        parsePath_loop fuel' s (S i) (flush tokens buf) ""
      else if Ascii.eqb ch "[" then
        match JS.indexOf s "]" i with
        | None => []
        | Some j =>
            let inside := JS.slice s (i + 1) j in
            match JS.Number_integer inside with
            | None => []
            | Some idx =>
                parsePath_loop fuel' s (S j) (flush tokens buf ++ [TIdx idx]) ""
            end
        end
      else parsePath_loop fuel' s (S i) tokens (buf +:+ String ch "")
  | _, _ => flush tokens buf
  end.

Definition parsePath (query : string) : list token :=
  if negb (truthy query) then []
  else
    let s := JS.trim query in
    let s := if JS.startsWith s "$" then JS.slice_from s 1 else s in
    let s := if JS.startsWith s "." then JS.slice_from s 1 else s in
    parsePath_loop (S (String.length s)) s 0 [] "".

(** ** findByPath

    The values the walk can hold in [cur]: a value of the document, or what
    a property inherited from a built-in prototype reads as. *)

Inductive jsval : Type :=
| Doc (v : json)
| Builtin (name : string)
| ObjectPrototype
| ArrayPrototype.

(** String-keyed properties of [Object.prototype] and [Array.prototype]
    (ECMAScript 2023); all but [__proto__] and [length] are functions. *)
Definition Object_prototype_keys : list string :=
  ["constructor"; "__defineGetter__"; "__defineSetter__"; "hasOwnProperty";
   "__lookupGetter__"; "__lookupSetter__"; "isPrototypeOf";
   "propertyIsEnumerable"; "toString"; "valueOf"; "__proto__";
   "toLocaleString"].

Definition Array_prototype_keys : list string :=
  ["length"; "constructor"; "at"; "concat"; "copyWithin"; "fill"; "find";
   "findIndex"; "findLast"; "findLastIndex"; "lastIndexOf"; "pop"; "push";
   "reverse"; "shift"; "unshift"; "slice"; "sort"; "splice"; "includes";
   "indexOf"; "join"; "keys"; "entries"; "values"; "forEach"; "filter";
   "flat"; "flatMap"; "map"; "every"; "some"; "reduce"; "reduceRight";
   "toLocaleString"; "toString"; "toReversed"; "toSorted"; "toSpliced";
   "with"].

Definition mem (k : string) (l : list string) : bool :=
  existsb (String.eqb k) l.

(** The element index that the property name [k] denotes in an array of
    [len] elements: the [i] below [len] with [String(i)] equal to [k]. *)
Definition array_index (k : string) (len : nat) : option nat :=
  List.find (fun i => String.eqb (pretty i) k) (seq 0 len).

(** [cur == null] and [typeof cur === 'object']. *)
Definition is_null (cur : jsval) : bool :=
  match cur with
  | Doc JNull => true
  | _ => false
  end.

Definition typeof_object (cur : jsval) : bool :=
  match cur with
  | Doc JNull | Doc (JObj _) | Doc (JArr _)
  | ObjectPrototype | ArrayPrototype => true
  | _ => false
  end.

(** [Array.isArray(cur)] with the elements. *)
Definition as_array (cur : jsval) : option (list json) :=
  match cur with
  | Doc (JArr items) => Some items
  | ArrayPrototype => Some []
  | _ => None
  end.

(** What an inherited property reads as. *)
Definition from_Object_prototype (proto : jsval) (k : string) : jsval :=
  if String.eqb k "__proto__" then proto else Builtin k.

Definition from_Array_prototype (proto : jsval) (k : string) : jsval :=
  if String.eqb k "length" then Doc (JNum 0)
  else if mem k Array_prototype_keys then Builtin k
  else from_Object_prototype proto k.

(** [k in cur], for [cur] an object other than [null]. *)
Definition has_property (cur : jsval) (k : string) : bool :=
  match cur with
  | Doc (JObj props) => mem k (keys props) || mem k Object_prototype_keys
  | Doc (JArr items) =>
      bool_decide (is_Some (array_index k (length items)))
      || mem k Array_prototype_keys || mem k Object_prototype_keys
  | ObjectPrototype => mem k Object_prototype_keys
  | ArrayPrototype => mem k Array_prototype_keys || mem k Object_prototype_keys
  | _ => false
  end.

(** [cur[k]], for [cur] an object with [k in cur]. *)
Definition get_property (cur : jsval) (k : string) : jsval :=
  match cur with
  | Doc (JObj props) =>
      match own props k with
      | Some v => Doc v
      | None => from_Object_prototype ObjectPrototype k
      end
  | Doc (JArr items) =>
      match array_index k (length items) with
      | Some i => Doc (default JNull (items !! i))
      | None =>
          if String.eqb k "length" then Doc (JNum (Z.of_nat (length items)))
          else from_Array_prototype ArrayPrototype k
      end
  | ObjectPrototype => from_Object_prototype (Doc JNull) k
  | ArrayPrototype => from_Array_prototype ObjectPrototype k
  | _ => Doc JNull
  end.

Record found : Type := Found { f_value : jsval; f_path : string }.

(** The [for ... of] loop; [None] is the source's [return null]. *)
Fixpoint findByPath_loop (cur : jsval) (path : string) (tokens : list token)
  : option found :=
  match tokens with
  | [] => Some (Found cur path)
  | TIdx t :: rest =>
      match as_array cur with
      | Some items =>
          if (t <? 0) || (Z.of_nat (length items) <=? t) then None
          else findByPath_loop (Doc (default JNull (items !! Z.to_nat t)))
                               (path +:+ "[" +:+ pretty t +:+ "]") rest
      | None => None
      end
  | TKey t :: rest =>
      if is_null cur || negb (typeof_object cur) || negb (has_property cur t)
      then None
      else findByPath_loop (get_property cur t) (path +:+ "." +:+ t) rest
  end.

Definition findByPath (data : json) (tokens : list token) : option found :=
  findByPath_loop (Doc data) "$" tokens.

(** ** The application state and its handlers *)

Record app : Type := App {
  jsonText : string; error : string; current : graph; raw : json;
  query : string; status : string; highlightId : option string;
  theme : string }.

(** [!raw]: no document, or a document that is a falsy primitive. The
    source keeps [null] in [raw] when there is no document. *)
Definition falsy (v : json) : bool :=
  match v with
  | JNull | JBool false | JNum 0 | JStr EmptyString => true
  | _ => false
  end.

(** Re-anchoring: the least x-coordinate moves to the left margin 40. *)
Definition reanchor (g : graph) : graph :=
  match nodes g with
  | [] => g
  | n0 :: _ =>
      let minX := fold_left Z.min (pos_x ∘ n_position <$> nodes g)
                            (pos_x (n_position n0)) in
      Graph ((fun n => FlowNode (n_id n)
                         (Point (pos_x (n_position n) - minX + 40)
                                (pos_y (n_position n)))
                         (label n) (tooltip n) (n_style n)
                         (sourcePosition n) (targetPosition n)) <$> nodes g)
            (edges g)
  end.

(** The pipeline shared by both handlers, before re-anchoring. *)
Definition buildGraph (data : json) (highlightId : option string) : graph :=
  let tree := buildTree data "root" in
  let tree := computeWidths tree in
  let tree := layoutTree tree 0 0 H_GAP V_GAP in
  mapToFlow tree NODE_COLORS highlightId.

(** [generate]; [parsed] is the outcome of [JSON.parse(jsonText)], [None]
    when it throws. The deferred viewport fit is left to the renderer. *)
Definition generate (parsed : option json) (st : app) : app :=
  match parsed with
  | Some data =>
      App (jsonText st) "" (reanchor (buildGraph data None)) data
          (query st) "" None (theme st)
  | None =>
      App (jsonText st) "Invalid JSON" (Graph [] []) JNull
          (query st) "" None (theme st)
  end.

Definition set_status (msg : string) (st : app) : app :=
  App (jsonText st) (error st) (current st) (raw st) (query st) msg
      (highlightId st) (theme st).

Definition set_highlightId (h : option string) (st : app) : app :=
  App (jsonText st) (error st) (current st) (raw st) (query st) (status st)
      h (theme st).

Definition set_graph (g : graph) (st : app) : app :=
  App (jsonText st) (error st) g (raw st) (query st) (status st)
      (highlightId st) (theme st).

(** [onSearch]. The deferred centring of the viewport on the matched node
    is left to the renderer. *)
Definition onSearch (st : app) : app :=
  if falsy (raw st) then
    set_status "No tree. Paste JSON and Generate first." st
  else
    let tokens := parsePath (query st) in
    if (length tokens =? 0)%nat && truthy (JS.trim (query st)) then
      set_status "No match found" st
    else
      let res := if (length tokens =? 0)%nat then Some (Found (Doc (raw st)) "$")
                 else findByPath (raw st) tokens in
      match res with
      | None => set_highlightId None (set_status "No match found" st)
      | Some r =>
          set_graph (reanchor (buildGraph (raw st) (Some (f_path r))))
            (set_highlightId (Some (f_path r)) (set_status "Match found" st))
      end.

(** * Specification-side definitions *)

(** ** The heap of [buildTree] against the recursive description *)

(** The child objects one loop iteration allocates for a value. *)
Definition child_cells (v : json) (path : string) : list cell :=
  match v with
  | JObj props => object_child props path <$> keys props
  | JArr items => imap (array_child path) items
  | _ => []
  end.

(** The stack entries pushed for cells allocated from address [a] on. *)
Fixpoint pending_of (a : nat) (cells : list cell) : list entry :=
  match cells with
  | [] => []
  | c :: cs =>
      (if kind_eqb (c_type c) KPrimitive then []
       else [(a, c_value c, c_id c)]) ++ pending_of (S a) cs
  end.

Definition tree_of_cell (c : cell) : tree unit :=
  subtree (c_id c) (c_key c) (c_value c).

(** A freshly allocated node object of a well-formed value. *)
Definition cell_ok (c : cell) : Prop :=
  c_children c = [] /\ c_type c = detectType (c_value c) /\ wf_json (c_value c).

#[local] Unset Elimination Schemes.

(** [repr h pend a t]: the object at address [a] denotes the tree [t], once
    every object still on the work stack ([pend]) has been expanded. *)
Inductive repr (h : heap) (pend : list nat) : nat -> tree unit -> Prop :=
| repr_pending a c :
    h !! a = Some c -> a ∈ pend ->
    repr h pend a (tree_of_cell c)
| repr_done a c ts :
    h !! a = Some c -> a ∉ pend ->
    Forall2 (repr h pend) (c_children c) ts ->
    repr h pend a (Node (c_id c) (c_key c) (c_type c) (c_value c) tt ts).

#[local] Set Elimination Schemes.

Definition addrs (stack : list entry) : list nat := (fun e => e.1.1) <$> stack.

Definition entry_ok (h : heap) (e : entry) : Prop :=
  exists c, h !! e.1.1 = Some c /\ c_value c = e.1.2 /\ c_id c = e.2 /\
            cell_ok c.

Record inv (final : tree unit) (st : heap * list entry) : Prop := Inv {
  inv_repr : repr st.1 (addrs st.2) 0 final;
  inv_nodup : NoDup (addrs st.2);
  inv_entries : Forall (entry_ok st.1) st.2;
  inv_links : forall a c b, st.1 !! a = Some c -> b ∈ c_children c ->
                            (a < b < length st.1)%nat }.

(** Iterations the loop still needs for a stack. *)
Definition need (stack : list entry) : nat :=
  sum_list ((fun e => Nat.max 1 (containers e.1.2)) <$> stack).

(** ** The traversal of [mapToFlow] *)

(** The order in which the stack loop of [mapToFlow] emits the nodes of a
    tree: the node, then the subtrees of its children, last child first. *)
Fixpoint visit_order {A} (t : tree A) : list (tree A) :=
  t :: concat (reverse (visit_order <$> children t)).

(** The order in which it emits the edges. *)
Fixpoint edge_order {A} (t : tree A) : list flow_edge :=
  (flow_edge_of t <$> children t)
  ++ concat (reverse (edge_order <$> children t)).

(** The number of nodes of the trees on a stack. *)
Definition stack_size {A} (stack : list (tree A)) : nat :=
  sum_list ((fun t => length (nodes_of t)) <$> stack).

(** A tree without the fields added by the passes. *)
Fixpoint erase {A} (t : tree A) : tree unit :=
  Node (id t) (key t) (type t) (value t) tt (erase <$> children t).

(** ** Counting the members of a document *)

(** The number of object keys and array elements reachable in a value. *)
Fixpoint members (v : json) : nat :=
  match v with
  | JArr items => (fix sum (l : list json) : nat :=
                     match l with
                     | [] => O
                     | x :: l' => (S (members x) + sum l')%nat
                     end) items
  | JObj props => (fix sum (l : list (string * json)) : nat :=
                     match l with
                     | [] => O
                     | kv :: l' => (S (members (snd kv)) + sum l')%nat
                     end) props
  | _ => O
  end.

(** The root is collapsed away: the document is an object with one key. *)
Definition collapsed (data : json) : bool :=
  match data with
  | JObj [_] => true
  | _ => false
  end.

(** ** Widths and spans *)

Definition sumZ (l : list Z) : Z := foldr Z.add 0 l.

(** The number of childless nodes of a tree. *)
Fixpoint leaves {A} (t : tree A) : Z :=
  match children t with
  | [] => 1
  | cs => sumZ (leaves <$> cs)
  end.

(** The [forEach] of [layoutTree] over the children, from a cursor. *)
Fixpoint layout_each (cs : list (tree Z)) (cursor depth xGap yGap : Z)
  : list (tree placed) :=
  match cs with
  | [] => []
  | c :: cs' =>
      layoutTree c cursor (depth + 1) xGap yGap
      :: layout_each cs' (cursor + width c * xGap) depth xGap yGap
  end.



(** ** Fields of a node object that [buildTree] never reassigns after the
    root collapse *)

Definition cell_fields (c : cell) : string * string * kind * json :=
  (c_id c, c_key c, c_type c, c_value c).

Definition tree_fields {A} (t : tree A) : string * string * kind * json :=
  (id t, key t, type t, value t).

(** Every centre of the laid-out tree of [u] lies in the span that starts
    at the [xStart] of the call and is as wide as [u] has leaves. *)
Definition contained (u : tree unit) : Prop :=
  forall x d m,
    m ∈ nodes_of (layoutTree (computeWidths u) x d H_GAP V_GAP) ->
    x <= pos_x (position (ann m)) < x + leaves u * H_GAP.

(** ** Example documents *)

(** [{"a": {"b": 1}}] *)
Definition doc_nested : json := JObj [("a", JObj [("b", JNum 1)])].

(** [{"x": 1, "y": 2}] *)
Definition doc_flat : json := JObj [("x", JNum 1); ("y", JNum 2)].

(** [{"a.b": 1, "a": {"b": 2}}] *)
Definition doc_dotted : json :=
  JObj [("a.b", JNum 1); ("a", JObj [("b", JNum 2)])].


(** ** Identifiers *)

(** A key without the separators ["."] and ["["]. *)
Fixpoint plain (k : string) : bool :=
  match k with
  | EmptyString => true
  | String c k' =>
      negb (Ascii.eqb c ".") && negb (Ascii.eqb c "[") && plain k'
  end.

(** Every object key of the document is plain. *)
Fixpoint plain_keys (v : json) : Prop :=
  match v with
  | JArr items => (fix all (l : list json) : Prop :=
                     match l with
                     | [] => True
                     | x :: l' => plain_keys x /\ all l'
                     end) items
  | JObj props => (fix all (l : list (string * json)) : Prop :=
                     match l with
                     | [] => True
                     | kv :: l' =>
                         (plain (fst kv) = true /\ plain_keys (snd kv)) /\ all l'
                     end) props
  | _ => True
  end.

(** What follows the id of a node in the id of a descendant: nothing, or
    a segment that starts with ["."] or ["["]. *)
Definition tail_ok (r : string) : Prop :=
  match r with
  | EmptyString => True
  | String c _ => c = "."%char \/ c = "["%char
  end.

Fixpoint is_digits (s : string) : bool :=
  match s with
  | EmptyString => true
  | String c s' =>
      match Ascii.is_nat c with
      | Some _ => is_digits s'
      | None => false
      end
  end.

(** The ids of a tree, the root first. *)
Definition ids {A} (t : tree A) : list string := id <$> nodes_of t.

(** The values directly inside a value. *)
Definition direct_members (v : json) : list json :=
  match v with
  | JArr items => items
  | JObj props => props.*2
  | _ => []
  end.

(** ** Canonical paths *)

(** The canonical path of a token sequence: [$] followed by [.key] for a
    string token and [[index]] for a number token. *)
Definition segment (t : token) : string :=
  match t with
  | TKey k => "." +:+ k
  | TIdx n => "[" +:+ pretty n +:+ "]"
  end.

Definition canonical_from (path : string) (tokens : list token) : string :=
  fold_left (fun p t => p +:+ segment t) tokens path.

(** ** Example states of the application *)

(** [{"a": 1, "b": 2}] *)
Definition doc_ab : json := JObj [("a", JNum 1); ("b", JNum 2)].

(** [setQuery]: the search box is edited. *)
Definition set_query (q : string) (st : app) : app :=
  App (jsonText st) (error st) (current st) (raw st) q (status st)
      (highlightId st) (theme st).

(** An empty application state, and the state after a tree was generated
    for a document. *)
Definition st_empty : app := App "" "" (Graph [] []) JNull "" "" None "light".

Definition st_generated (data : json) : app := generate (Some data) st_empty.

(** The state after generating the tree of [doc_ab] and a successful search
    for [a]. *)
Definition st_matched : app := onSearch (set_query "a" (st_generated doc_ab)).

(** [{"user": {"address": {"city": "Bangalore"}}}] *)
Definition doc_city : json :=
  JObj [("user", JObj [("address", JObj [("city", JStr "Bangalore")])])].

(** ** Further handlers of the application *)

(** [clearAll]. *)
Definition clearAll (st : app) : app :=
  App "" "" (Graph [] []) JNull "" "" None (theme st).

(** [onNodeClick]: the id of the clicked node goes to the clipboard, which
    is outside the state, and into the status line. *)
Definition onNodeClick (node : flow_node) (st : app) : app :=
  set_status ("Copied path: " +:+ n_id node) st.

(** ** Statement-side definitions for the further properties *)

(** What of an emitted node does not depend on the highlight: everything but
    the style. *)
Definition unstyled (n : flow_node) : string * point * string * string :=
  (n_id n, n_position n, label n, tooltip n).

(** The node is drawn in the highlight colour. *)
Definition highlighted (n : flow_node) : Prop :=
  background (n_style n) = highlight NODE_COLORS.


(** A node moved [dx] to the right; everything else stays. *)
Definition shifted (dx : Z) (n : flow_node) : flow_node :=
  FlowNode (n_id n)
           (Point (pos_x (n_position n) + dx) (pos_y (n_position n)))
           (label n) (tooltip n) (n_style n)
           (sourcePosition n) (targetPosition n).

(** ** Paths that survive the search box *)

(** The last character of a string is white space. *)
Definition ends_white (s : string) : bool :=
  match String.rev s with
  | String c _ => JS.is_white c
  | EmptyString => false
  end.

(** A key that [parsePath] reads back as written: it is not empty, holds
    no separator and does not end in white space. *)
Definition searchable_key (k : string) : bool :=
  truthy k && plain k && negb (ends_white k).

(** The largest index that a number holds exactly. *)
Definition MAX_SAFE_INTEGER : Z := 2 ^ 53 - 1.

Definition searchable (t : token) : Prop :=
  match t with
  | TKey k => searchable_key k = true
  | TIdx n => 0 <= n <= MAX_SAFE_INTEGER
  end.

(** A document all of whose keys are searchable. Arrays are as long as the
    language lets them be at most. *)
Fixpoint searchable_doc (v : json) : Prop :=
  match v with
  | JArr items => Z.of_nat (length items) <= 2 ^ 32 - 1 /\
                  (fix all (l : list json) : Prop :=
                     match l with
                     | [] => True
                     | x :: l' => searchable_doc x /\ all l'
                     end) items
  | JObj props => (fix all (l : list (string * json)) : Prop :=
                     match l with
                     | [] => True
                     | kv :: l' =>
                         (searchable_key (fst kv) = true /\ searchable_doc (snd kv))
                         /\ all l'
                     end) props
  | _ => True
  end.

(** The segments of a token sequence, one after the other. *)
Definition segments (tokens : list token) : string :=
  foldr (fun t r => segment t +:+ r) "" tokens.

(** A click on a node copies its id; the user pastes it into the search
    box and searches. *)
Definition copy_and_search (m : flow_node) (st : app) : app :=
  onSearch (set_query (n_id m) (onNodeClick m st)).
(** * Lemmas *)

(** ** Induction principles *)

Lemma json_ind (P : json -> Prop) :
  P JNull -> (forall b, P (JBool b)) -> (forall n, P (JNum n)) ->
  (forall s, P (JStr s)) ->
  (forall items, Forall P items -> P (JArr items)) ->
  (forall props, Forall (fun kv => P kv.2) props -> P (JObj props)) ->
  forall v, P v.
Proof.
  intros Hnull Hbool Hnum Hstr Harr Hobj. fix IH 1. intros [ | b | n | s | items | props ].
  - exact Hnull.
  - apply Hbool.
  - apply Hnum.
  - apply Hstr.
  - apply Harr. induction items as [ | x items IHitems ]; constructor; [ apply IH | exact IHitems ].
  - apply Hobj. induction props as [ | kv props IHprops ]; constructor; [ apply IH | exact IHprops ].
Qed.

Lemma tree_ind {A} (P : tree A -> Prop) :
  (forall i k ty v a cs, Forall P cs -> P (Node i k ty v a cs)) ->
  forall t, P t.
Proof.
  intros H. fix IH 1. intros [i k ty v a cs]. apply H.
  induction cs as [ | c cs IHcs ]; constructor; [ apply IH | exact IHcs ].
Qed.

(** ** Well-formed documents *)

Lemma wf_json_arr items : wf_json (JArr items) <-> Forall wf_json items.
Proof.
  simpl. induction items as [ | x items IH ]; [ by split; [ constructor | ] | ].
  rewrite Forall_cons, <- IH. done.
Qed.

Lemma wf_json_obj props :
  wf_json (JObj props) <-> NoDup (keys props) /\ Forall (fun kv => wf_json kv.2) props.
Proof.
  simpl. apply and_iff_compat_l.
  induction props as [ | kv props IH ]; [ by split; [ constructor | ] | ].
  rewrite Forall_cons, <- IH. done.
Qed.

Lemma own_lookup props k v :
  NoDup (keys props) -> (k, v) ∈ props -> own props k = Some v.
Proof.
  induction props as [ | [k' v'] props IH ]; intros Hnd Hin; [ by apply elem_of_nil in Hin | ].
  apply NoDup_cons in Hnd as [Hk' Hnd]. simpl.
  apply elem_of_cons in Hin as [ Heq | Hin ].
  - injection Heq as -> ->. by rewrite String.eqb_refl.
  - destruct (String.eqb_spec k' k) as [ -> | _ ]; [ | by apply IH ].
    exfalso. apply Hk'. unfold keys. apply list_elem_of_fmap. by exists (k, v).
Qed.

Lemma prop_lookup props k v :
  NoDup (keys props) -> (k, v) ∈ props -> prop props k = v.
Proof. intros Hnd Hin. unfold prop. by rewrite (own_lookup _ _ _ Hnd Hin). Qed.

(** ** One iteration of the [buildTree] loop *)

Lemma push_children_app l1 l2 c :
  push_children l2 (push_children l1 c) = push_children (l1 ++ l2) c.
Proof. unfold push_children. simpl. by rewrite app_assoc. Qed.

Lemma push_children_nil c : push_children [] c = c.
Proof. destruct c. unfold push_children. simpl. by rewrite app_nil_r. Qed.

Lemma alter_alter {A} (f g : A -> A) i (l : list A) :
  alter f i (alter g i l) = alter (fun x => f (g x)) i l.
Proof. revert i. induction l as [ | x l IH ]; intros [ | i ]; f_equal/=; auto. Qed.

Lemma fold_add_child node cells : forall h stack,
  (node < length h)%nat ->
  fold_left (fun st c => add_child node c st) cells (h, stack) =
  (alter (push_children (seq (length h) (length cells))) node (h ++ cells),
   reverse (pending_of (length h) cells) ++ stack).
Proof.
  induction cells as [ | c cells IH ]; intros h stack Hlt.
  - simpl. rewrite app_nil_r. f_equal. symmetry.
    apply list_alter_id. intros x. apply push_children_nil.
  - cbn [fold_left add_child]. rewrite IH by (rewrite length_alter, length_app; simpl; lia).
    rewrite length_alter, length_app. cbn [length].
    f_equal.
    + rewrite <- alter_app_l by (rewrite length_app; simpl; lia).
      rewrite alter_alter. rewrite <- app_assoc. cbn [List.app].
      apply list_alter_ext; [ | done ]. intros x _.
      rewrite push_children_app. by replace (length h + 1)%nat with (S (length h)) by lia.
    + cbn [pending_of]. replace (length h + 1)%nat with (S (length h)) by lia.
      rewrite reverse_app, <- app_assoc. f_equal.
      by destruct (kind_eqb (c_type c) KPrimitive).
Qed.

Lemma fold_left_fmap {A B C} (f : A -> B) (g : C -> B -> C) l : forall st,
  fold_left (fun st x => g st (f x)) l st = fold_left g (f <$> l) st.
Proof. induction l as [ | x l IH ]; intros st; [ done | apply IH ]. Qed.

Lemma expand_entry_cells h stack node v path c :
  h !! node = Some c -> c_type c = detectType v ->
  expand_entry (node, v, path) (h, stack) =
  fold_left (fun st c => add_child node c st) (child_cells v path) (h, stack).
Proof.
  intros Hc Hty. unfold expand_entry. cbn [fst]. rewrite Hc. cbn [fmap option_fmap option_map].
  rewrite Hty. destruct v as [ | | | | items | props ]; try done; cbn [detectType child_cells].
  - rewrite (fold_left_fmap (fun iv => array_child path iv.1 iv.2)
               (fun st c => add_child node c st)).
    f_equal. rewrite fmap_imap. by apply imap_ext.
  - by rewrite (fold_left_fmap (object_child props path) (fun st c => add_child node c st)).
Qed.

(** ** The children of a value and the cells allocated for them *)

Lemma subtree_unfold path k v :
  subtree path k v =
  Node path k (detectType v) v tt (children (subtree path k v)).
Proof. by destruct v. Qed.

Lemma subtree_obj_children path k props :
  children (subtree path k (JObj props)) =
  (fun kv => subtree (path +:+ "." +:+ kv.1) kv.1 kv.2) <$> props.
Proof. simpl. induction props as [ | kv props IH ]; [ done | ]. by rewrite fmap_cons, <- IH. Qed.

Lemma subtree_arr_children path k items :
  children (subtree path k (JArr items)) =
  imap (fun i x => subtree (path +:+ "[" +:+ pretty i +:+ "]") (pretty i) x) items.
Proof.
  simpl.
  enough (forall n,
    (fix go (i : nat) (l : list json) {struct l} : list (tree ()) :=
       match l with
       | [] => []
       | x :: l' =>
           subtree (path +:+ "[" +:+ pretty i +:+ "]") (pretty i) x :: go (S i) l'
       end) n items =
    imap (fun i x => subtree (path +:+ "[" +:+ pretty (n + i)%nat +:+ "]")
                             (pretty (n + i)%nat) x) items) as Hgen
    by apply (Hgen 0%nat).
  induction items as [ | x items IH ]; intros n; [ done | ].
  rewrite imap_cons, Nat.add_0_r. f_equal. rewrite (IH (S n)).
  apply imap_ext. intros i y _. unfold compose. by replace (S n + i)%nat with (n + S i)%nat by lia.
Qed.

Lemma subtree_children path k v :
  wf_json v ->
  children (subtree path k v) = tree_of_cell <$> child_cells v path.
Proof.
  destruct v as [ | | | | items | props ]; try done; intros Hwf.
  - rewrite subtree_arr_children. unfold child_cells. rewrite fmap_imap.
    by apply imap_ext.
  - rewrite subtree_obj_children. unfold child_cells, keys.
    rewrite <- !list_fmap_compose. apply wf_json_obj in Hwf as [Hnd _].
    apply list_fmap_ext. intros i [k' v'] Hi. unfold compose, tree_of_cell, object_child.
    simpl. rewrite (prop_lookup props k' v'); [ done | done | ].
    by eapply list_elem_of_lookup_2.
Qed.

Lemma wf_json_own props k v :
  Forall (fun kv => wf_json kv.2) props -> own props k = Some v -> wf_json v.
Proof.
  induction 1 as [ | [k' v'] props Hkv _ IH ]; [ done | ]. simpl.
  destruct (String.eqb k' k); [ by intros [= <-] | exact IH ].
Qed.

Lemma wf_json_prop props k :
  Forall (fun kv => wf_json kv.2) props -> wf_json (prop props k).
Proof.
  intros Hall. unfold prop. destruct (own props k) as [ v | ] eqn:E; [ | done ].
  by eapply wf_json_own.
Qed.

Lemma child_cells_ok v path : wf_json v -> Forall cell_ok (child_cells v path).
Proof.
  destruct v as [ | | | | items | props ]; try (intros; constructor); intros Hwf.
  - apply wf_json_arr in Hwf. unfold child_cells.
    apply Forall_lookup. intros i c Hc. apply list_lookup_imap_Some in Hc as (x & Hx & ->).
    repeat split. eapply Forall_lookup_1 in Hwf; eauto.
  - apply wf_json_obj in Hwf as [_ Hall]. unfold child_cells.
    apply Forall_fmap, Forall_forall. intros k' _. repeat split. simpl.
    by apply wf_json_prop.
Qed.

Lemma containers_arr items :
  containers (JArr items) = S (sum_list (containers <$> items)).
Proof. simpl. f_equal. induction items as [ | x items IH ]; [ done | ]. simpl. by rewrite IH. Qed.

Lemma containers_obj props :
  containers (JObj props) = S (sum_list ((fun kv => containers kv.2) <$> props)).
Proof. simpl. f_equal. induction props as [ | x props IH ]; [ done | ]. simpl. by rewrite IH. Qed.

Lemma containers_cells v path :
  wf_json v ->
  containers v =
  ((match detectType v with KPrimitive => 0 | _ => 1 end)
   + sum_list ((fun c => containers (c_value c)) <$> child_cells v path))%nat.
Proof.
  destruct v as [ | | | | items | props ]; try done; intros Hwf.
  - rewrite containers_arr. unfold child_cells. cbn [detectType]. do 2 f_equal.
    rewrite fmap_imap, <- (imap_const containers items). by apply imap_ext.
  - rewrite containers_obj. unfold child_cells, keys. cbn [detectType]. do 2 f_equal.
    rewrite <- !list_fmap_compose. apply wf_json_obj in Hwf as [Hnd _].
    apply list_fmap_ext. intros i [k' v'] Hi. unfold compose. simpl.
    rewrite (prop_lookup props k' v'); [ done | done | ].
    by eapply list_elem_of_lookup_2.
Qed.

(** ** The entries pushed by one iteration *)

Lemma elem_of_pending_of a cells e :
  e ∈ pending_of a cells <->
  exists i c, cells !! i = Some c /\ kind_eqb (c_type c) KPrimitive = false /\
              e = ((a + i)%nat, c_value c, c_id c).
Proof.
  revert a. induction cells as [ | c cells IH ]; intros a; simpl.
  - split; [ intros H; by apply elem_of_nil in H | by intros (i & c & H & _) ].
  - rewrite elem_of_app, IH. split.
    + intros [ H | (i & c' & H1 & H2 & ->) ].
      * destruct (kind_eqb (c_type c) KPrimitive) eqn:E; [ by apply elem_of_nil in H | ].
        apply list_elem_of_singleton in H as ->. exists 0%nat, c. by rewrite Nat.add_0_r.
      * exists (S i), c'. repeat split; [ done | done | ]. do 2 f_equal. lia.
    + intros ([ | i ] & c' & H1 & H2 & ->).
      * left. simpl in H1. injection H1 as <-. rewrite H2, Nat.add_0_r.
        by apply list_elem_of_singleton.
      * right. exists i, c'. repeat split; [ done | done | ]. do 2 f_equal. lia.
Qed.

Lemma elem_of_addrs_pending_of a cells b :
  b ∈ addrs (pending_of a cells) <->
  exists i c, cells !! i = Some c /\ kind_eqb (c_type c) KPrimitive = false /\
              b = (a + i)%nat.
Proof.
  unfold addrs. rewrite list_elem_of_fmap. split.
  - intros (e & -> & He). apply elem_of_pending_of in He as (i & c & H1 & H2 & ->). by exists i, c.
  - intros (i & c & H1 & H2 & ->). exists ((a + i)%nat, c_value c, c_id c). split; [ done | ].
    apply elem_of_pending_of. by exists i, c.
Qed.

Lemma NoDup_addrs_pending_of a cells : NoDup (addrs (pending_of a cells)).
Proof.
  revert a. induction cells as [ | c cells IH ]; intros a; [ constructor | ].
  simpl. unfold addrs. rewrite fmap_app. fold (addrs (pending_of (S a) cells)).
  destruct (kind_eqb (c_type c) KPrimitive); [ apply IH | ].
  simpl. apply NoDup_cons. split; [ | apply IH ].
  intros (i & c' & _ & _ & Hi)%elem_of_addrs_pending_of. lia.
Qed.

Lemma containers_nonprimitive v : detectType v <> KPrimitive -> (1 <= containers v)%nat.
Proof. destruct v; simpl; try done; lia. Qed.

Lemma containers_primitive v : detectType v = KPrimitive -> containers v = 0%nat.
Proof. by destruct v. Qed.

Lemma kind_eqb_eq a b : kind_eqb a b = true <-> a = b.
Proof. by destruct a, b. Qed.

Lemma need_pending_of a cells :
  Forall cell_ok cells ->
  need (pending_of a cells) = sum_list ((fun c => containers (c_value c)) <$> cells).
Proof.
  intros Hok. revert a. induction Hok as [ | c cells (_ & Hty & _) _ IH ]; intros a; [ done | ].
  simpl. unfold need. rewrite fmap_app, sum_list_with_app. fold (need (pending_of (S a) cells)).
  rewrite IH. f_equal.
  destruct (kind_eqb (c_type c) KPrimitive) eqn:E.
  - apply kind_eqb_eq in E. rewrite Hty in E. by rewrite containers_primitive.
  - simpl. assert (detectType (c_value c) <> KPrimitive) as Hne.
    { intros Heq. rewrite <- Hty in Heq. apply kind_eqb_eq in Heq. congruence. }
    apply containers_nonprimitive in Hne. lia.
Qed.

Lemma need_app s1 s2 : need (s1 ++ s2) = (need s1 + need s2)%nat.
Proof. unfold need. by rewrite fmap_app, sum_list_with_app. Qed.

Lemma need_reverse s : need (reverse s) = need s.
Proof.
  induction s as [ | e s IH ]; [ done | ]. rewrite reverse_cons, need_app, IH.
  change (e :: s) with ([e] ++ s). rewrite need_app. lia.
Qed.

(** ** The loop invariant across one iteration *)

Lemma subtree_primitive path k v :
  detectType v = KPrimitive -> subtree path k v = Node path k KPrimitive v tt [].
Proof. by destruct v. Qed.

Lemma entry_ok_lt h e : entry_ok h e -> (e.1.1 < length h)%nat.
Proof. intros (c & Hc & _). by eapply lookup_lt_Some. Qed.

Lemma addrs_lt h stack b :
  Forall (entry_ok h) stack -> b ∈ addrs stack -> (b < length h)%nat.
Proof.
  intros Hall (e & -> & He)%list_elem_of_fmap.
  eapply Forall_forall in Hall; [ | exact He ]. by apply entry_ok_lt.
Qed.

Section step.

Variables (h : heap) (a : nat) (c : cell) (rest : list entry).
Hypothesis Hc : h !! a = Some c.
Hypothesis Hok : cell_ok c.
Hypothesis Hfresh : a ∉ addrs rest.
Hypothesis Hrest : Forall (entry_ok h) rest.

Let cells : list cell := child_cells (c_value c) (c_id c).
Let h' : heap :=
  alter (push_children (seq (length h) (length cells))) a (h ++ cells).
Let stack' : list entry := reverse (pending_of (length h) cells) ++ rest.

Lemma step_lt : (a < length h)%nat.
Proof. by eapply lookup_lt_Some. Qed.

Lemma step_state :
  expand_entry (a, c_value c, c_id c) (h, rest) = (h', stack').
Proof.
  destruct Hok as (_ & Hty & _).
  rewrite (expand_entry_cells h rest a (c_value c) (c_id c) c Hc Hty).
  apply fold_add_child, step_lt.
Qed.

Lemma step_lookup_old b : (b < length h)%nat -> b <> a -> h' !! b = h !! b.
Proof.
  intros Hb Hne. unfold h'. rewrite list_lookup_alter_ne by done.
  by apply lookup_app_l.
Qed.

Lemma step_lookup_node :
  h' !! a = Some (push_children (seq (length h) (length cells)) c).
Proof.
  unfold h'. rewrite list_lookup_alter_eq, lookup_app_l by apply step_lt.
  by rewrite Hc.
Qed.

Lemma step_lookup_new i x :
  cells !! i = Some x -> h' !! (length h + i)%nat = Some x.
Proof.
  intros Hx. unfold h'. pose proof step_lt.
  rewrite list_lookup_alter_ne by lia.
  rewrite lookup_app_r by lia. by replace (length h + i - length h)%nat with i by lia.
Qed.

Lemma step_pending b :
  b ∈ addrs stack' <->
  b ∈ addrs rest \/
  exists i x, cells !! i = Some x /\ kind_eqb (c_type x) KPrimitive = false /\
              b = (length h + i)%nat.
Proof.
  unfold stack', addrs. rewrite fmap_app, elem_of_app, fmap_reverse, elem_of_reverse.
  fold (addrs (pending_of (length h) cells)). rewrite elem_of_addrs_pending_of.
  tauto.
Qed.

Lemma step_repr t : forall b,
  repr h (a :: addrs rest) b t -> repr h' (addrs stack') b t.
Proof.
  induction t as [i k ty v u cs IH] using tree_ind. intros b Hr.
  pose proof step_lt as Hlt. destruct Hok as (Hnil & Hty & Hwf).
  inversion Hr as [ b' c0 Hb Hin Heq | b' c0 ts Hb Hnin Hall ]; subst.
  - apply elem_of_cons in Hin as [ -> | Hin ].
    + assert (c0 = c) as -> by congruence.
      unfold tree_of_cell. rewrite subtree_unfold, subtree_children by done.
      fold cells. rewrite <- Hty.
      change (repr h' (addrs stack') a
                (Node (c_id (push_children (seq (length h) (length cells)) c))
                      (c_key (push_children (seq (length h) (length cells)) c))
                      (c_type (push_children (seq (length h) (length cells)) c))
                      (c_value (push_children (seq (length h) (length cells)) c))
                      tt (tree_of_cell <$> cells))).
      apply repr_done; [ apply step_lookup_node | | ].
      * intros [ Ha | (j & x & _ & _ & Ha) ]%step_pending; [ done | lia ].
      * simpl. rewrite Hnil. simpl. apply Forall2_fmap_r.
        apply Forall2_same_length_lookup_2; [ by rewrite length_seq | ].
        intros j x y Hx Hy. apply lookup_seq in Hx as [-> _]. unfold compose.
        pose proof (child_cells_ok (c_value c) (c_id c) Hwf) as Hcells.
        eapply Forall_lookup_1 in Hcells as (Hynil & Hyty & Hywf); [ | exact Hy ].
        destruct (kind_eqb (c_type y) KPrimitive) eqn:E.
        -- apply kind_eqb_eq in E. unfold tree_of_cell.
           rewrite subtree_primitive by congruence. rewrite <- E.
           apply (repr_done h' (addrs stack') (length h + j)%nat y []).
           ++ by apply step_lookup_new.
           ++ intros [ Ha | (j' & x' & Hx' & Hnp & Ha) ]%step_pending.
              ** eapply addrs_lt in Ha; [ | exact Hrest ]. lia.
              ** assert (j' = j) as -> by lia. rewrite Hy in Hx'. injection Hx' as <-.
                 rewrite E in Hnp. done.
           ++ rewrite Hynil. constructor.
        -- apply repr_pending; [ by apply step_lookup_new | ].
           apply step_pending. right. by exists j, y.
    + assert (b <> a) as Hne by (intros ->; done).
      pose proof (addrs_lt h rest b Hrest Hin) as Hb'.
      apply repr_pending; [ by rewrite step_lookup_old | ].
      apply step_pending. by left.
  - assert (b <> a) as Hne by (intros ->; apply Hnin; left).
    pose proof (lookup_lt_Some _ _ _ Hb) as Hb'.
    apply repr_done; [ by rewrite step_lookup_old | | ].
    + intros [ Ha | (j & x & _ & _ & Ha) ]%step_pending; [ | lia ].
      apply Hnin. by right.
    + clear Hr Hb. induction Hall as [ | b1 t1 bs ts Hbt Hall IHall ]; [ constructor | ].
      apply Forall_cons in IH as [IH1 IH2]. constructor; [ by apply IH1 | by apply IHall ].
Qed.

Lemma step_inv final :
  inv final (h, (a, c_value c, c_id c) :: rest) -> inv final (h', stack').
Proof.
  intros [Hrepr Hnd Hent Hlinks]. simpl in *.
  pose proof step_lt as Hlt. destruct Hok as (Hnil & Hty & Hwf).
  pose proof (child_cells_ok (c_value c) (c_id c) Hwf) as Hcells. fold cells in Hcells.
  split; simpl.
  - by apply step_repr.
  - unfold stack', addrs. rewrite fmap_app, fmap_reverse.
    fold (addrs (pending_of (length h) cells)). fold (addrs rest).
    apply NoDup_app. split; [ rewrite reverse_Permutation; apply NoDup_addrs_pending_of | ].
    split; [ | by apply NoDup_cons in Hnd as [_ Hnd] ].
    intros b Hb Hb'. rewrite elem_of_reverse in Hb.
    apply elem_of_addrs_pending_of in Hb as (j & x & _ & _ & ->).
    eapply addrs_lt in Hb'; [ | exact Hrest ]. lia.
  - unfold stack'. apply Forall_app. split.
    + apply Forall_forall. intros e He. rewrite elem_of_reverse in He.
      apply elem_of_pending_of in He as (j & x & Hx & _ & ->).
      eapply Forall_lookup_1 in Hcells as (Hxnil & Hxty & Hxwf); [ | exact Hx ].
      exists x. simpl. by rewrite (step_lookup_new j x Hx).
    + apply Forall_forall. intros e He.
      pose proof (proj1 (Forall_forall _ _) Hrest e He) as (c0 & Hc0 & Hrest0).
      exists c0. split; [ | done ].
      rewrite step_lookup_old; [ done | by eapply lookup_lt_Some | ].
      intros Heq. apply Hfresh. unfold addrs. apply list_elem_of_fmap. by exists e.
  - intros a0 c0 b Ha0 Hb.
    assert (length h' = (length h + length cells)%nat) as ->
      by (unfold h'; by rewrite length_alter, length_app).
    destruct (decide (a0 = a)) as [ -> | Hne ].
    + rewrite step_lookup_node in Ha0. injection Ha0 as <-. simpl in Hb.
      rewrite Hnil in Hb. simpl in Hb. apply elem_of_seq in Hb. lia.
    + destruct (decide (a0 < length h)%nat) as [ Hlt0 | Hge ].
      * rewrite step_lookup_old in Ha0 by done.
        specialize (Hlinks a0 c0 b Ha0 Hb). lia.
      * unfold h' in Ha0. rewrite list_lookup_alter_ne in Ha0 by done.
        rewrite lookup_app_r in Ha0 by lia.
        eapply Forall_lookup_1 in Hcells as (Hxnil & _); [ | exact Ha0 ].
        rewrite Hxnil in Hb. by apply elem_of_nil in Hb.
Qed.

Lemma step_need : (S (need stack') <= need ((a, c_value c, c_id c) :: rest))%nat.
Proof.
  destruct Hok as (Hnil & Hty & Hwf).
  pose proof (child_cells_ok (c_value c) (c_id c) Hwf) as Hcells. fold cells in Hcells.
  unfold stack'. rewrite need_app, need_reverse, (need_pending_of _ _ Hcells).
  change ((a, c_value c, c_id c) :: rest) with ([(a, c_value c, c_id c)] ++ rest).
  rewrite need_app. unfold need at 2. simpl.
  rewrite (containers_cells (c_value c) (c_id c) Hwf). fold cells.
  destruct (detectType (c_value c)) eqn:E; [ lia | lia | ].
  assert (cells = []) as -> by (unfold cells; by destruct (c_value c)).
  simpl. lia.
Qed.

End step.

(** ** The loop of [buildTree] reaches an empty stack and builds the subtree *)

Lemma need_cons_pos e stack : (1 <= need (e :: stack))%nat.
Proof. unfold need. simpl. lia. Qed.

Lemma buildTree_loop_inv final : forall fuel st,
  inv final st -> (need st.2 <= fuel)%nat ->
  (buildTree_loop fuel st).2 = [] /\ inv final (buildTree_loop fuel st).
Proof.
  induction fuel as [ | fuel IH ]; intros [h stack] Hinv Hneed; cbn [snd] in Hneed.
  - destruct stack as [ | e stack ]; [ done | ].
    pose proof (need_cons_pos e stack). lia.
  - destruct stack as [ | [[a v] path] rest ]; [ done | ]. cbn [buildTree_loop snd fst].
    pose proof (inv_entries _ _ Hinv) as Hent. simpl in Hent.
    apply Forall_cons in Hent as [(c & Hc & Hv & Hp & Hnil & Hty & Hwf) Hrest].
    simpl in Hc, Hv, Hp. subst v path.
    pose proof (inv_nodup _ _ Hinv) as Hnd. simpl in Hnd.
    apply NoDup_cons in Hnd as [Hfresh _].
    assert (cell_ok c) as Hok by done.
    rewrite (step_state h a c rest Hc Hok).
    apply IH.
    + by apply step_inv.
    + cbn [snd]. apply Nat.succ_le_mono.
      exact (Nat.le_trans _ _ _ (step_need h a c rest Hok) Hneed).
Qed.

Lemma readback_repr h :
  (forall a c b, h !! a = Some c -> b ∈ c_children c -> (a < b < length h)%nat) ->
  forall fuel a t, repr h [] a t -> (length h <= fuel + a)%nat ->
                   readback fuel h a = t.
Proof.
  intros Hlinks. induction fuel as [ | fuel IH ]; intros a t Hr Hlen;
    inversion Hr as [ ? ? ? Hin | ? c ts Hc _ Hall ]; subst;
    try (by apply elem_of_nil in Hin).
  - apply lookup_lt_Some in Hc. lia.
  - cbn [readback]. rewrite Hc. f_equal.
    assert (forall b, b ∈ c_children c -> (a < b)%nat) as Hgt
      by (intros b Hb; by destruct (Hlinks a c b Hc Hb)).
    clear Hr Hc. induction Hall as [ | b t bs ts Hbt _ IHall ]; [ done | ].
    rewrite fmap_cons. f_equal.
    + apply IH; [ done | ]. specialize (Hgt b ltac:(left)). lia.
    + apply IHall. intros b' Hb'. apply Hgt. by right.
Qed.

Lemma root_cell_ok data rootKey : wf_json data -> cell_ok (root_cell data rootKey).
Proof.
  intros Hwf. unfold root_cell. cbn [c_type].
  destruct data as [ | | | | items | props ]; try done. cbn [detectType].
  destruct (keys props) as [ | k [ | k' ks ] ]; try done.
  repeat split. simpl. apply wf_json_prop. by apply wf_json_obj in Hwf as [_ Hall].
Qed.

Lemma initial_inv data rootKey :
  wf_json data ->
  inv (tree_of_cell (root_cell data rootKey))
      ([root_cell data rootKey],
       [(0%nat, c_value (root_cell data rootKey), c_id (root_cell data rootKey))]).
Proof.
  intros Hwf. pose proof (root_cell_ok data rootKey Hwf) as Hok.
  split; simpl.
  - apply repr_pending; [ done | by left ].
  - apply NoDup_singleton.
  - apply Forall_singleton. by eexists.
  - intros [ | a ] c b Hc Hb; [ | done ]. injection Hc as <-.
    destruct Hok as (Hnil & _). rewrite Hnil in Hb. by apply elem_of_nil in Hb.
Qed.

Lemma need_initial a v path : need [(a, v, path)] = Nat.max 1 (containers v).
Proof. unfold need. simpl. lia. Qed.

(** The work stack of [buildTree] is empty when its loop stops. *)
Lemma buildTree_terminates data rootKey :
  wf_json data -> (buildTree_heap data rootKey).2 = [].
Proof.
  intros Hwf. unfold buildTree_heap.
  apply (buildTree_loop_inv _ _ _ (initial_inv data rootKey Hwf)).
  cbn [snd]. rewrite need_initial. lia.
Qed.

(** [buildTree] returns the recursively described tree of the root. *)
Lemma buildTree_subtree data rootKey :
  wf_json data ->
  buildTree data rootKey = tree_of_cell (root_cell data rootKey).
Proof.
  intros Hwf. pose proof (buildTree_terminates data rootKey Hwf) as Hstack.
  unfold buildTree. unfold buildTree_heap in *.
  destruct (buildTree_loop_inv _ (S (containers (c_value (root_cell data rootKey)))) _
              (initial_inv data rootKey Hwf)) as [_ [Hrepr _ _ Hlinks]].
  { cbn [snd]. rewrite need_initial. lia. }
  rewrite Hstack in Hrepr.
  apply readback_repr; [ exact Hlinks | exact Hrepr | lia ].
Qed.

(** ** Nodes of a tree *)

Lemma elem_of_concat {A} (x : A) (ls : list (list A)) :
  x ∈ concat ls <-> exists l, x ∈ l /\ l ∈ ls.
Proof.
  induction ls as [ | l ls IH ]; simpl.
  - split; [ intros H; by apply elem_of_nil in H | intros (l & _ & H); by apply elem_of_nil in H ].
  - rewrite elem_of_app, IH. split.
    + intros [ H | (l' & H1 & H2) ]; [ exists l; split; [ done | by left ] | ].
      exists l'. split; [ done | by right ].
    + intros (l' & H1 & [ -> | H2 ]%elem_of_cons); [ by left | right; by exists l' ].
Qed.

Lemma nodes_of_unfold {A} (t : tree A) :
  nodes_of t = t :: concat (nodes_of <$> children t).
Proof.
  destruct t as [i k ty v a cs]. simpl. f_equal.
  induction cs as [ | c cs IH ]; [ done | ]. rewrite fmap_cons. simpl. by rewrite IH.
Qed.

Lemma nodes_of_self {A} (t : tree A) : t ∈ nodes_of t.
Proof. rewrite nodes_of_unfold. by left. Qed.

Lemma nodes_of_child {A} (t c n : tree A) :
  c ∈ children t -> n ∈ nodes_of c -> n ∈ nodes_of t.
Proof.
  intros Hc Hn. rewrite nodes_of_unfold. right.
  apply elem_of_concat. exists (nodes_of c). split; [ done | ].
  apply list_elem_of_fmap. by exists c.
Qed.

Lemma nodes_of_inv {A} (t n : tree A) :
  n ∈ nodes_of t -> n = t \/ exists c, c ∈ children t /\ n ∈ nodes_of c.
Proof.
  rewrite nodes_of_unfold. intros [ -> | Hn ]%elem_of_cons; [ by left | right ].
  apply elem_of_concat in Hn as (l & Hn & (c & -> & Hc)%list_elem_of_fmap). by exists c.
Qed.

Lemma nodes_of_trans {A} (t m n : tree A) :
  m ∈ nodes_of t -> n ∈ nodes_of m -> n ∈ nodes_of t.
Proof.
  revert m n. induction t as [i k ty v a cs IH] using tree_ind. intros m n Hm Hn.
  apply nodes_of_inv in Hm as [ -> | (c & Hc & Hm) ]; [ done | ].
  eapply nodes_of_child; [ exact Hc | ].
  eapply Forall_forall in IH; [ | exact Hc ]. by eapply IH.
Qed.

Lemma length_nodes_of_pos {A} (t : tree A) : (1 <= length (nodes_of t))%nat.
Proof. rewrite nodes_of_unfold. simpl. lia. Qed.

(** ** The loop of [mapToFlow] *)

Lemma visit_order_unfold {A} (t : tree A) :
  visit_order t = t :: concat (reverse (visit_order <$> children t)).
Proof. by destruct t. Qed.

Lemma edge_order_unfold {A} (t : tree A) :
  edge_order t = (flow_edge_of t <$> children t)
                 ++ concat (reverse (edge_order <$> children t)).
Proof. by destruct t. Qed.

Lemma visit_children (n : tree placed) cs : forall stack ns es,
  fold_left (fun (st : flow_state) c =>
               let '(stack, ns, es) := st in
               (c :: stack, ns, es ++ [flow_edge_of n c])) cs (stack, ns, es)
  = (reverse cs ++ stack, ns, es ++ (flow_edge_of n <$> cs)).
Proof.
  induction cs as [ | c cs IH ]; intros stack ns es.
  - simpl. by rewrite app_nil_r.
  - cbn [fold_left]. rewrite IH, reverse_cons, <- !app_assoc. done.
Qed.

Lemma visit_eq colors hl n stack ns es :
  visit colors hl n (stack, ns, es) =
  (reverse (children n) ++ stack, ns ++ [flow_node_of colors hl n],
   es ++ (flow_edge_of n <$> children n)).
Proof. unfold visit. by apply visit_children. Qed.

Lemma stack_size_app {A} (s1 s2 : list (tree A)) :
  stack_size (s1 ++ s2) = (stack_size s1 + stack_size s2)%nat.
Proof. unfold stack_size. by rewrite fmap_app, sum_list_with_app. Qed.

Lemma stack_size_reverse {A} (s : list (tree A)) : stack_size (reverse s) = stack_size s.
Proof. unfold stack_size. by rewrite fmap_reverse, sum_list_with_reverse. Qed.

Lemma length_concat_nodes {A} (cs : list (tree A)) :
  length (concat (nodes_of <$> cs)) = stack_size cs.
Proof.
  unfold stack_size. induction cs as [ | c cs IH ]; [ done | ].
  rewrite !fmap_cons. cbn [concat]. rewrite length_app, IH. done.
Qed.

Lemma stack_size_cons {A} (t : tree A) s :
  stack_size (t :: s) = (S (stack_size (children t)) + stack_size s)%nat.
Proof.
  change (t :: s) with ([t] ++ s). rewrite stack_size_app. f_equal.
  unfold stack_size at 1. rewrite fmap_cons, nodes_of_unfold. cbn [length fmap list_fmap].
  rewrite length_concat_nodes. simpl. lia.
Qed.

Lemma concat_reverse_app {A B} (f : A -> list B) (l1 l2 : list A) :
  concat (f <$> (reverse l1 ++ l2)) =
  concat (reverse (f <$> l1)) ++ concat (f <$> l2).
Proof. by rewrite fmap_app, concat_app, fmap_reverse. Qed.

(** With fuel for every node on the stack, the loop empties the stack. *)
Lemma mapToFlow_loop_spec colors hl : forall fuel stack ns es,
  (stack_size stack <= fuel)%nat ->
  mapToFlow_loop colors hl fuel (stack, ns, es) =
  ([], ns ++ (flow_node_of colors hl <$> concat (visit_order <$> stack)),
   es ++ concat (edge_order <$> stack)).
Proof.
  induction fuel as [ | fuel IH ]; intros [ | n stack ] ns es Hfuel;
    try (simpl; by rewrite !app_nil_r).
  - rewrite stack_size_cons in Hfuel. lia.
  - cbn [mapToFlow_loop]. rewrite visit_eq. rewrite stack_size_cons in Hfuel.
    rewrite IH by (rewrite stack_size_app, stack_size_reverse; lia).
    rewrite !concat_reverse_app, !fmap_cons. cbn [concat].
    rewrite visit_order_unfold, edge_order_unfold. cbn [List.app].
    rewrite !fmap_app, fmap_cons, <- !app_assoc. cbn [List.app].
    by rewrite fmap_app.
Qed.

Lemma mapToFlow_spec node colors hl :
  mapToFlow node colors hl =
  Graph (flow_node_of colors hl <$> visit_order node) (edge_order node).
Proof.
  unfold mapToFlow. rewrite mapToFlow_loop_spec.
  - simpl. by rewrite !app_nil_r.
  - unfold stack_size. simpl. lia.
Qed.

Lemma Permutation_concat_reverse {A B} (f g : A -> list B) (l : list A) :
  Forall (fun x => f x ≡ₚ g x) l ->
  concat (reverse (f <$> l)) ≡ₚ concat (g <$> l).
Proof.
  induction 1 as [ | x l Hx _ IH ]; [ done | ].
  rewrite !fmap_cons, reverse_cons, concat_app. cbn [concat].
  rewrite app_nil_r, IH, Hx. apply Permutation_app_comm.
Qed.

Lemma visit_order_Permutation {A} (t : tree A) : visit_order t ≡ₚ nodes_of t.
Proof.
  induction t as [i k ty v a cs IH] using tree_ind.
  rewrite visit_order_unfold, nodes_of_unfold. constructor.
  by apply Permutation_concat_reverse.
Qed.

Lemma length_concat_reverse {A} (ls : list (list A)) :
  length (concat (reverse ls)) = length (concat ls).
Proof.
  induction ls as [ | l ls IH ]; [ done | ].
  rewrite reverse_cons, concat_app. cbn [concat].
  rewrite !length_app, IH. simpl. lia.
Qed.

Lemma length_edge_order {A} (t : tree A) :
  S (length (edge_order t)) = length (nodes_of t).
Proof.
  induction t as [i k ty v a cs IH] using tree_ind.
  rewrite edge_order_unfold, nodes_of_unfold. cbn [length children]. f_equal.
  rewrite length_app, length_fmap, length_concat_reverse.
  induction IH as [ | c cs Hc _ IHcs ]; [ done | ].
  rewrite !fmap_cons. cbn [concat length]. rewrite !length_app, <- Hc. lia.
Qed.

(** ** Trees without their annotations *)

Lemma erase_unfold {A} (t : tree A) :
  erase t = Node (id t) (key t) (type t) (value t) tt (erase <$> children t).
Proof. by destruct t. Qed.

Lemma erase_unit (t : tree unit) : erase t = t.
Proof.
  induction t as [i k ty v [] cs IH] using tree_ind. rewrite erase_unfold. simpl. f_equal.
  induction IH as [ | c cs Hc _ IHcs ]; [ done | ]. by rewrite fmap_cons, Hc, IHcs.
Qed.

Lemma nodes_of_erase {A} (t : tree A) : nodes_of (erase t) = erase <$> nodes_of t.
Proof.
  induction t as [i k ty v a cs IH] using tree_ind.
  rewrite !nodes_of_unfold, fmap_cons. f_equal. rewrite erase_unfold. cbn [children].
  induction IH as [ | c cs Hc _ IHcs ]; [ done | ].
  rewrite !fmap_cons. cbn [concat]. by rewrite fmap_app, Hc, IHcs.
Qed.

Lemma ids_erase {A} (t : tree A) : id <$> nodes_of (erase t) = id <$> nodes_of t.
Proof.
  rewrite nodes_of_erase, <- list_fmap_compose. apply list_fmap_ext.
  intros i [] _. done.
Qed.

(** ** computeWidths *)

Lemma computeWidths_unfold (node : tree unit) :
  computeWidths node =
  Node (id node) (key node) (type node) (value node)
       (match computeWidths <$> children node with
        | [] => 1
        | _ => Z.max 1 (fold_left (fun sum c => sum + width c)
                                  (computeWidths <$> children node) 0)
        end)
       (computeWidths <$> children node).
Proof. by destruct node. Qed.

Lemma erase_computeWidths (t : tree unit) : erase (computeWidths t) = t.
Proof.
  induction t as [i k ty v [] cs IH] using tree_ind.
  rewrite computeWidths_unfold, erase_unfold. cbn [id key type value children]. f_equal.
  induction IH as [ | c cs Hc _ IHcs ]; [ done | ]. by rewrite !fmap_cons, Hc, IHcs.
Qed.

Lemma fold_left_widths (cs : list (tree Z)) : forall z,
  fold_left (fun sum c => sum + width c) cs z = z + sumZ (width <$> cs).
Proof.
  induction cs as [ | c cs IH ]; intros z; [ simpl; lia | ].
  cbn [fold_left]. rewrite IH, fmap_cons. unfold sumZ. cbn [foldr]. lia.
Qed.

Lemma sumZ_cons x l : sumZ (x :: l) = x + sumZ l.
Proof. done. Qed.

Lemma sumZ_ge_length l : Forall (fun x => 1 <= x) l -> Z.of_nat (length l) <= sumZ l.
Proof.
  induction 1 as [ | x l Hx _ IH ]; [ done | ]. rewrite sumZ_cons. cbn [length]. lia.
Qed.

Lemma leaves_unfold {A} (t : tree A) :
  leaves t = match children t with
             | [] => 1
             | c :: cs => sumZ (leaves <$> c :: cs)
             end.
Proof. by destruct t as [i k ty v a [ | c cs ]]. Qed.

Lemma leaves_pos {A} (t : tree A) : 1 <= leaves t.
Proof.
  induction t as [i k ty v a cs IH] using tree_ind. rewrite leaves_unfold. cbn [children].
  destruct cs as [ | c cs ]; [ done | ].
  assert (Forall (fun x => 1 <= x) (leaves <$> c :: cs)) as Hall by by apply Forall_fmap.
  apply sumZ_ge_length in Hall. rewrite length_fmap in Hall. cbn [length] in Hall. lia.
Qed.

Lemma children_computeWidths (t : tree unit) :
  children (computeWidths t) = computeWidths <$> children t.
Proof. by rewrite computeWidths_unfold. Qed.

Lemma width_computeWidths (t : tree unit) : width (computeWidths t) = leaves t.
Proof.
  induction t as [i k ty v [] cs IH] using tree_ind.
  rewrite computeWidths_unfold, leaves_unfold. unfold width at 1. cbn [ann children].
  destruct cs as [ | c cs ]; [ done | ].
  rewrite fold_left_widths.
  assert (width <$> (computeWidths <$> c :: cs) = leaves <$> c :: cs) as Heq.
  { rewrite <- list_fmap_compose. apply Forall_fmap_ext_1.
    eapply Forall_impl; [ exact IH | ]. by intros x Hx. }
  rewrite Heq. rewrite fmap_cons at 1.
  pose proof (leaves_pos (Node i k ty v tt (c :: cs))) as Hpos.
  rewrite leaves_unfold in Hpos. cbn [children] in Hpos. lia.
Qed.


(** ** The fields of the root survive the loop of [buildTree] *)

Lemma add_child_fields node child st a c :
  st.1 !! a = Some c ->
  exists c', (add_child node child st).1 !! a = Some c' /\ cell_fields c' = cell_fields c.
Proof.
  destruct st as [h stack]. cbn [fst add_child]. intros Ha.
  pose proof (lookup_lt_Some _ _ _ Ha) as Hlt.
  destruct (decide (node = a)) as [ -> | Hne ].
  - rewrite list_lookup_alter_eq, lookup_app_l, Ha by done. by eexists.
  - rewrite list_lookup_alter_ne, lookup_app_l, Ha by done. by eexists.
Qed.

Lemma fold_add_child_fields {X} node (f : X -> cell) xs : forall st a c,
  st.1 !! a = Some c ->
  exists c', (fold_left (fun st x => add_child node (f x) st) xs st).1 !! a = Some c'
             /\ cell_fields c' = cell_fields c.
Proof.
  induction xs as [ | x xs IH ]; intros st a c Ha; [ by exists c | ].
  cbn [fold_left]. destruct (add_child_fields node (f x) st a c Ha) as (c1 & H1 & E1).
  destruct (IH _ a c1 H1) as (c2 & H2 & E2). exists c2. split; [ done | congruence ].
Qed.

Lemma expand_entry_fields e st a c :
  st.1 !! a = Some c ->
  exists c', (expand_entry e st).1 !! a = Some c' /\ cell_fields c' = cell_fields c.
Proof.
  intros Ha. destruct e as [[node v] path]. unfold expand_entry.
  destruct (c_type <$> st.1 !! node) as [ [ | | ] | ]; destruct v; try (by exists c).
  - by apply (fold_add_child_fields node (object_child props path)).
  - by apply (fold_add_child_fields node (fun iv => array_child path iv.1 iv.2)).
Qed.

Lemma buildTree_loop_fields : forall fuel st a c,
  st.1 !! a = Some c ->
  exists c', (buildTree_loop fuel st).1 !! a = Some c' /\ cell_fields c' = cell_fields c.
Proof.
  induction fuel as [ | fuel IH ]; intros st a c Ha; [ by exists c | ].
  cbn [buildTree_loop]. destruct st.2 as [ | e stack ]; [ by exists c | ].
  destruct (expand_entry_fields e (st.1, stack) a c Ha) as (c1 & H1 & E1).
  destruct (IH _ a c1 H1) as (c2 & H2 & E2). exists c2. split; [ done | congruence ].
Qed.

Lemma readback_fields fuel h a c :
  h !! a = Some c -> tree_fields (readback fuel h a) = cell_fields c.
Proof. intros Ha. destruct fuel; simpl; by rewrite Ha. Qed.

Lemma buildTree_fields data rootKey :
  tree_fields (buildTree data rootKey) = cell_fields (root_cell data rootKey).
Proof.
  unfold buildTree, buildTree_heap.
  destruct (buildTree_loop_fields (S (containers (c_value (root_cell data rootKey))))
              ([root_cell data rootKey],
               [(0%nat, c_value (root_cell data rootKey), c_id (root_cell data rootKey))])
              0%nat (root_cell data rootKey) eq_refl) as (c' & Hc' & E).
  rewrite <- E. by apply readback_fields.
Qed.

Lemma prop_singleton k v : prop [(k, v)] k = v.
Proof. unfold prop. simpl. by rewrite String.eqb_refl. Qed.

(** ** layoutTree keeps the tree *)

Lemma layoutTree_unfold node xStart depth xGap yGap :
  layoutTree node xStart depth xGap yGap =
  Node (id node) (key node) (type node) (value node)
       (Placed (width node)
               (Point (xStart + (width node * xGap) / 2) (depth * yGap)))
       (layout_each (children node) xStart depth xGap yGap).
Proof.
  destruct node as [i k ty v w cs]. cbn [layoutTree id key type value children]. f_equal.
  generalize xStart. induction cs as [ | c cs IH ]; intros x; [ done | ].
  cbn [layout_each]. by rewrite <- IH.
Qed.

Lemma erase_layoutTree xGap yGap (t : tree Z) : forall xStart depth,
  erase (layoutTree t xStart depth xGap yGap) = erase t.
Proof.
  induction t as [i k ty v w cs IH] using tree_ind. intros x d.
  rewrite layoutTree_unfold, !erase_unfold. cbn [id key type value children]. f_equal.
  generalize x. induction IH as [ | c cs Hc _ IHcs ]; intros x'; [ done | ].
  cbn [layout_each]. by rewrite !fmap_cons, Hc, IHcs.
Qed.

Lemma erase_pipeline (t : tree unit) xStart depth xGap yGap :
  erase (layoutTree (computeWidths t) xStart depth xGap yGap) = t.
Proof. by rewrite erase_layoutTree, erase_computeWidths. Qed.

Lemma length_nodes_of_erase {A} (t : tree A) :
  length (nodes_of (erase t)) = length (nodes_of t).
Proof. by rewrite nodes_of_erase, length_fmap. Qed.

(** ** The size of the tree of a document *)

Lemma members_arr items :
  members (JArr items) = sum_list ((fun x => S (members x)) <$> items).
Proof. simpl. induction items as [ | x items IH ]; [ done | ]. simpl. by rewrite IH. Qed.

Lemma members_obj props :
  members (JObj props) = sum_list ((fun kv => S (members kv.2)) <$> props).
Proof. simpl. induction props as [ | x props IH ]; [ done | ]. simpl. by rewrite IH. Qed.

Lemma length_nodes_subtree v : forall path k,
  length (nodes_of (subtree path k v)) = S (members v).
Proof.
  induction v as [ | | | | items IH | props IH ] using json_ind; intros path k; try done;
    rewrite nodes_of_unfold; cbn [length]; f_equal; rewrite length_concat_nodes.
  - rewrite subtree_arr_children, members_arr. unfold stack_size. f_equal.
    rewrite fmap_imap, <- (imap_const (fun x => S (members x))).
    apply imap_ext. intros i x Hi. unfold compose, const.
    eapply Forall_lookup_1 in IH; [ | exact Hi ]. apply IH.
  - rewrite subtree_obj_children, members_obj. unfold stack_size. f_equal.
    rewrite <- list_fmap_compose. apply list_fmap_ext. intros i kv Hi. unfold compose.
    eapply Forall_lookup_1 in IH; [ | exact Hi ]. apply IH.
Qed.

Lemma length_nodes_pipeline (t : tree unit) xStart depth xGap yGap :
  length (nodes_of (layoutTree (computeWidths t) xStart depth xGap yGap)) =
  length (nodes_of t).
Proof. by rewrite <- length_nodes_of_erase, erase_pipeline. Qed.

(** * Properties of the engine *)

(** C1. [buildTree] collapses a root object with exactly one key [k]: the
    root gets the key [k], the value and the kind of the value at [k], and
    the id [$.k]. For every other document (an object with no key or with
    several keys, an array, a primitive) the root keeps the id [$], the key
    passed as [rootKey], and the value and kind of the document. *)
Theorem buildTree_root_collapse (data : json) (rootKey : string) :
  let root := buildTree data rootKey in
  match data with
  | JObj [(k, v)] =>
      id root = "$." +:+ k /\ key root = k /\ value root = v /\
      type root = detectType v
  | _ =>
      id root = "$" /\ key root = rootKey /\ value root = data /\
      type root = detectType data
  end.
Proof.
  intros root. pose proof (buildTree_fields data rootKey) as Hf.
  fold root in Hf. unfold tree_fields, cell_fields in Hf.
  injection Hf as Hid Hkey Hty Hval. clearbody root.
  destruct data as [ | b | n | s | items | [ | [k v] [ | kv props ] ] ];
    cbn in Hid, Hkey, Hty, Hval; rewrite ?String.eqb_refl in Hty, Hval;
    repeat split; assumption.
Qed.

(** C4. For a well-formed document the pipeline [buildTree],
    [computeWidths], [layoutTree], [mapToFlow] without highlight emits as
    many nodes as the document has object keys and array elements, plus one
    unless the root was collapsed away, and one edge less than nodes. *)
Theorem buildGraph_counts (v : json) :
  wf_json v ->
  length (nodes (buildGraph v None)) =
    (members v + (if collapsed v then 0 else 1))%nat /\
  length (edges (buildGraph v None)) =
    (length (nodes (buildGraph v None)) - 1)%nat.
Proof.
  intros Hwf. unfold buildGraph. rewrite mapToFlow_spec. cbn [nodes edges].
  rewrite length_fmap, visit_order_Permutation.
  pose proof (length_edge_order
                (layoutTree (computeWidths (buildTree v "root")) 0 0 H_GAP V_GAP)) as He.
  split; [ | lia ].
  rewrite length_nodes_pipeline, buildTree_subtree by done.
  unfold tree_of_cell. rewrite length_nodes_subtree.
  destruct v as [ | b | n | s | items | [ | [k x] [ | kv props ] ] ];
    cbn [root_cell detectType c_type keys fmap list_fmap fst c_value collapsed];
    rewrite ?prop_singleton; try lia.
  rewrite members_obj. simpl. lia.
Qed.

Lemma buildGraph_counts_witness :
  wf_json (JObj [("a", JObj [("b", JNum 1)])]) /\
  length (nodes (buildGraph (JObj [("a", JObj [("b", JNum 1)])]) None)) = 2%nat /\
  length (edges (buildGraph (JObj [("a", JObj [("b", JNum 1)])]) None)) = 1%nat.
Proof.
  assert (wf_json (JObj [("a", JObj [("b", JNum 1)])])) as Hwf.
  { simpl. repeat split; apply NoDup_singleton. }
  split; [ exact Hwf | ].
  destruct (buildGraph_counts _ Hwf) as [Hn He]. rewrite He, Hn. by vm_compute.
Defined.

(** ** Nodes of the tree of a document *)

Lemma subtree_children_lookup path k v i c :
  children (subtree path k v) !! i = Some c ->
  (exists props k' x, v = JObj props /\ props !! i = Some (k', x) /\
                      c = subtree (path +:+ "." +:+ k') k' x) \/
  (exists items x, v = JArr items /\ items !! i = Some x /\
                   c = subtree (path +:+ "[" +:+ pretty i +:+ "]") (pretty i) x).
Proof.
  destruct v as [ | | | | items | props ]; try done.
  - rewrite subtree_arr_children. intros (x & Hx & ->)%list_lookup_imap_Some.
    right. by exists items, x.
  - rewrite subtree_obj_children, list_lookup_fmap.
    destruct (props !! i) as [ [k' x] | ] eqn:E; [ | done ]. intros [= <-].
    left. by exists props, k', x.
Qed.

Lemma nodes_subtree_form v : forall path k m,
  m ∈ nodes_of (subtree path k v) -> exists path' k' v', m = subtree path' k' v'.
Proof.
  induction v as [ | | | | items IH | props IH ] using json_ind; intros path k m Hn;
    apply nodes_of_inv in Hn as [ -> | (c & Hc & Hn) ]; try (by eexists _, _, _);
    try (by apply elem_of_nil in Hc);
    apply list_elem_of_lookup in Hc as (i & Hc);
    apply subtree_children_lookup in Hc
      as [ (props' & k' & x & [= <-] & Hx & ->) | (items' & x & [= <-] & Hx & ->) ];
    eapply Forall_lookup_1 in IH; try exact Hx; by eapply IH.
Qed.






(** ** layoutTree: spans *)

Lemma H_GAP_half w : (w * H_GAP) / 2 = w * 100.
Proof. unfold H_GAP. replace (w * 200) with (w * 100 * 2) by lia. by apply Z.div_mul. Qed.

Lemma ann_layoutTree w x d xGap yGap :
  ann (layoutTree w x d xGap yGap) =
  Placed (width w) (Point (x + (width w * xGap) / 2) (d * yGap)).
Proof. by rewrite layoutTree_unfold. Qed.

Lemma children_layoutTree w x d xGap yGap :
  children (layoutTree w x d xGap yGap) = layout_each (children w) x d xGap yGap.
Proof. by rewrite layoutTree_unfold. Qed.


Lemma layout_each_elem cs : forall cursor d xGap yGap c',
  c' ∈ layout_each cs cursor d xGap yGap ->
  exists c x, c ∈ cs /\ c' = layoutTree c x (d + 1) xGap yGap.
Proof.
  induction cs as [ | c cs IH ]; intros cursor d xGap yGap c' Hc'; [ by apply elem_of_nil in Hc' | ].
  cbn [layout_each] in Hc'. apply elem_of_cons in Hc' as [ -> | Hc' ].
  - exists c, cursor. split; [ by left | done ].
  - destruct (IH _ _ _ _ _ Hc') as (c0 & x & Hc0 & ->). exists c0, x. split; [ by right | done ].
Qed.



Lemma sumZ_leaves_nonneg {A} (cs : list (tree A)) : 0 <= sumZ (leaves <$> cs).
Proof.
  induction cs as [ | c cs IH ]; [ done | ].
  rewrite fmap_cons, sumZ_cons. pose proof (leaves_pos c). lia.
Qed.

Lemma layout_each_contained cs :
  Forall contained cs ->
  forall cursor d c' m,
    c' ∈ layout_each (computeWidths <$> cs) cursor d H_GAP V_GAP ->
    m ∈ nodes_of c' ->
    cursor <= pos_x (position (ann m)) < cursor + sumZ (leaves <$> cs) * H_GAP.
Proof.
  induction 1 as [ | c cs Hc _ IH ]; intros cursor d c' m Hc' Hm;
    [ by apply elem_of_nil in Hc' | ].
  rewrite fmap_cons in Hc'. cbn [layout_each] in Hc'.
  rewrite fmap_cons, sumZ_cons.
  pose proof (leaves_pos c). pose proof (sumZ_leaves_nonneg cs).
  assert (0 < H_GAP) by done.
  apply elem_of_cons in Hc' as [ -> | Hc' ].
  - specialize (Hc _ _ _ Hm). nia.
  - rewrite width_computeWidths in Hc'. specialize (IH _ _ _ _ Hc' Hm). nia.
Qed.

Lemma layoutTree_contained u : contained u.
Proof.
  induction u as [i k ty v [] cs IH] using tree_ind. intros x d m Hm.
  pose proof (leaves_pos (Node i k ty v tt cs)) as Hpos.
  apply nodes_of_inv in Hm as [ -> | (c' & Hc' & Hm) ].
  - rewrite ann_layoutTree, width_computeWidths, H_GAP_half.
    cbn [position pos_x]. unfold H_GAP. lia.
  - rewrite children_layoutTree, children_computeWidths in Hc'. cbn [children] in Hc'.
    pose proof (layout_each_contained cs IH _ _ _ _ Hc' Hm) as Hin.
    rewrite leaves_unfold. cbn [children].
    destruct cs as [ | c cs ]; [ by apply elem_of_nil in Hc' | exact Hin ].
Qed.





(** ** Strings *)

Lemma append_cons c s1 s2 : String c s1 +:+ s2 = String c (s1 +:+ s2).
Proof. done. Qed.

Lemma append_nil_l s : "" +:+ s = s.
Proof. done. Qed.

Lemma append_nil_r s : s +:+ "" = s.
Proof. induction s as [ | c s IH ]; [ done | ]. by rewrite append_cons, IH. Qed.

Lemma append_assoc s1 s2 s3 : (s1 +:+ s2) +:+ s3 = s1 +:+ (s2 +:+ s3).
Proof. induction s1 as [ | c s1 IH ]; [ done | ]. by rewrite !append_cons, IH. Qed.

Lemma length_append s1 s2 :
  String.length (s1 +:+ s2) = (String.length s1 + String.length s2)%nat.
Proof. induction s1 as [ | c s1 IH ]; [ done | ]. rewrite append_cons. simpl. by rewrite IH. Qed.

Lemma append_inv_l s r : s +:+ r = s -> r = "".
Proof.
  intros H. apply (f_equal String.length) in H. rewrite length_append in H.
  destruct r; [ done | simpl in H; lia ].
Qed.

Lemma plain_head c k : plain (String c k) = true -> c <> "."%char /\ c <> "["%char /\ plain k = true.
Proof.
  simpl. intros [[H1 H2]%andb_prop H3]%andb_prop.
  apply negb_true_iff, Ascii.eqb_neq in H1. apply negb_true_iff, Ascii.eqb_neq in H2. done.
Qed.

(** A plain key is delimited by the separator that follows it. *)
Lemma key_segment_inj k1 : forall k2 r1 r2,
  plain k1 = true -> plain k2 = true -> tail_ok r1 -> tail_ok r2 ->
  k1 +:+ r1 = k2 +:+ r2 -> k1 = k2 /\ r1 = r2.
Proof.
  induction k1 as [ | c1 k1 IH ]; intros [ | c2 k2 ] r1 r2 Hp1 Hp2 Ht1 Ht2 Heq.
  - done.
  - rewrite append_nil_l, append_cons in Heq. subst r1.
    apply plain_head in Hp2 as (? & ? & _). by destruct Ht1.
  - rewrite append_nil_l, append_cons in Heq. subst r2.
    apply plain_head in Hp1 as (? & ? & _). by destruct Ht2.
  - rewrite !append_cons in Heq. injection Heq as -> Heq.
    apply plain_head in Hp1 as (_ & _ & Hp1). apply plain_head in Hp2 as (_ & _ & Hp2).
    destruct (IH _ _ _ Hp1 Hp2 Ht1 Ht2 Heq) as [-> ->]. done.
Qed.

(** A run of digits is delimited by the bracket that closes it. *)
Lemma index_segment_inj d1 : forall d2 r1 r2,
  is_digits d1 = true -> is_digits d2 = true ->
  d1 +:+ String "]" r1 = d2 +:+ String "]" r2 -> d1 = d2 /\ r1 = r2.
Proof.
  induction d1 as [ | c1 d1 IH ]; intros [ | c2 d2 ] r1 r2 Hd1 Hd2 Heq.
  - rewrite !append_nil_l in Heq. by injection Heq as ->.
  - rewrite append_nil_l, append_cons in Heq. by injection Heq as <- _.
  - rewrite append_nil_l, append_cons in Heq. by injection Heq as -> _.
  - rewrite !append_cons in Heq. injection Heq as -> Heq. simpl in Hd1, Hd2.
    destruct (Ascii.is_nat c2); [ | done ].
    by destruct (IH _ _ _ Hd1 Hd2 Heq) as [-> ->].
Qed.

Lemma is_digits_app s1 s2 :
  is_digits s1 = true -> is_digits s2 = true -> is_digits (s1 +:+ s2) = true.
Proof.
  induction s1 as [ | c s1 IH ]; intros H1 H2; [ done | ].
  rewrite append_cons. simpl in *. destruct (Ascii.is_nat c); [ by apply IH | done ].
Qed.

Lemma pretty_N_char_digit x : is_digits (String (pretty_N_char x) "") = true.
Proof. unfold pretty_N_char. by repeat case_match. Qed.

Lemma pretty_N_go_digits x : forall s,
  exists d, pretty_N_go x s = d +:+ s /\ is_digits d = true.
Proof.
  induction (N.lt_wf_0 x) as [x _ IH]. intros s.
  destruct (decide (x = 0)%N) as [ -> | Hne ].
  - exists "". by rewrite pretty_N_go_0.
  - rewrite pretty_N_go_step by lia.
    destruct (IH (x `div` 10)%N ltac:(apply N.div_lt; lia)
                 (String (pretty_N_char (x `mod` 10)) s)) as (d & -> & Hd).
    exists (d +:+ String (pretty_N_char (x `mod` 10)) ""). split.
    + by rewrite append_assoc.
    + apply is_digits_app; [ done | apply pretty_N_char_digit ].
Qed.

Lemma pretty_nat_digits (n : nat) : is_digits (pretty n) = true.
Proof.
  unfold pretty, pretty_nat, pretty, pretty_N. case_decide; [ done | ].
  destruct (pretty_N_go_digits (N.of_nat n) "") as (d & -> & Hd). by rewrite append_nil_r.
Qed.

(** ** Identifiers of the tree of a document *)

Lemma json_members_ind (P : json -> Prop) :
  (forall v, Forall P (direct_members v) -> P v) -> forall v, P v.
Proof.
  intros H. induction v as [ | | | | items IH | props IH ] using json_ind;
    apply H; try constructor; [ exact IH | ].
  cbn [direct_members]. by apply Forall_fmap.
Qed.

Lemma plain_keys_arr items : plain_keys (JArr items) <-> Forall plain_keys items.
Proof.
  simpl. induction items as [ | x items IH ]; [ by split; [ constructor | ] | ].
  rewrite Forall_cons, <- IH. done.
Qed.

Lemma plain_keys_obj props :
  plain_keys (JObj props) <->
  Forall (fun kv => plain kv.1 = true /\ plain_keys kv.2) props.
Proof.
  simpl. induction props as [ | kv props IH ]; [ by split; [ constructor | ] | ].
  rewrite Forall_cons, <- IH. done.
Qed.

Lemma wf_json_member v x : wf_json v -> x ∈ direct_members v -> wf_json x.
Proof.
  destruct v as [ | | | | items | props ]; try (intros _ H; by apply elem_of_nil in H).
  - intros Hwf%wf_json_arr Hx. by eapply Forall_forall in Hwf.
  - intros [_ Hwf]%wf_json_obj (kv & -> & Hkv)%list_elem_of_fmap.
    by eapply Forall_forall in Hwf.
Qed.

Lemma plain_keys_member v x : plain_keys v -> x ∈ direct_members v -> plain_keys x.
Proof.
  destruct v as [ | | | | items | props ]; try (intros _ H; by apply elem_of_nil in H).
  - intros Hp%plain_keys_arr Hx. by eapply Forall_forall in Hp.
  - intros Hp%plain_keys_obj (kv & -> & Hkv)%list_elem_of_fmap.
    eapply Forall_forall in Hp; [ | exact Hkv ]. by destruct Hp.
Qed.

Lemma id_subtree path k v : id (subtree path k v) = path.
Proof. by destruct v. Qed.

(** A child's id is the parent's id followed by a segment that starts with
    a separator. *)
Lemma subtree_child path k v i c :
  children (subtree path k v) !! i = Some c ->
  exists ch seg k' x,
    (ch = "."%char \/ ch = "["%char) /\
    c = subtree (path +:+ String ch seg) k' x /\ x ∈ direct_members v.
Proof.
  intros [ (props & k' & x & -> & Hx & ->) | (items & x & -> & Hx & ->) ]%subtree_children_lookup.
  - exists "."%char, k', k', x. split; [ by left | split; [ done | ] ].
    cbn [direct_members]. apply list_elem_of_fmap. exists (k', x).
    split; [ done | by eapply list_elem_of_lookup_2 ].
  - exists "["%char, (pretty i +:+ "]"), (pretty i), x. split; [ by right | split; [ done | ] ].
    by eapply list_elem_of_lookup_2.
Qed.

(** Children at different positions have ids that no common string
    extends. *)
Lemma subtree_children_apart path k v i j c1 c2 r1 r2 :
  wf_json v -> plain_keys v ->
  children (subtree path k v) !! i = Some c1 ->
  children (subtree path k v) !! j = Some c2 ->
  tail_ok r1 -> tail_ok r2 ->
  id c1 +:+ r1 = id c2 +:+ r2 -> i = j.
Proof.
  intros Hwf Hpl
    [ (props & k1 & x1 & -> & Hx1 & ->) | (items & x1 & -> & Hx1 & ->) ]%subtree_children_lookup
    [ (props' & k2 & x2 & [= <-] & Hx2 & ->) | (items' & x2 & [= <-] & Hx2 & ->) ]%subtree_children_lookup
    Ht1 Ht2 Heq;
    rewrite !id_subtree, !append_assoc in Heq; apply (inj (String.app path)) in Heq;
    rewrite !append_cons, !append_nil_l in Heq; injection Heq as Heq.
  - apply wf_json_obj in Hwf as [Hnd _]. apply plain_keys_obj in Hpl.
    pose proof (Forall_lookup_1 _ _ _ _ Hpl Hx1) as [Hp1 _].
    pose proof (Forall_lookup_1 _ _ _ _ Hpl Hx2) as [Hp2 _].
    destruct (key_segment_inj _ _ _ _ Hp1 Hp2 Ht1 Ht2 Heq) as [Hk _]. simpl in Hk. subst k2.
    apply (NoDup_lookup (keys props) i j k1 Hnd);
      unfold keys; rewrite list_lookup_fmap; [ by rewrite Hx1 | by rewrite Hx2 ].
  - destruct (index_segment_inj _ _ _ _ (pretty_nat_digits i) (pretty_nat_digits j) Heq) as [Hij _].
    by apply (inj pretty) in Hij.
Qed.

Lemma ids_unfold {A} (t : tree A) : ids t = id t :: concat (ids <$> children t).
Proof.
  unfold ids. rewrite nodes_of_unfold, fmap_cons. f_equal.
  induction (children t) as [ | c cs IH ]; [ done | ].
  rewrite !fmap_cons. cbn [concat]. by rewrite fmap_app, IH.
Qed.

Lemma elem_of_ids_children {A} (t : tree A) x :
  x ∈ concat (ids <$> children t) <->
  exists i c, children t !! i = Some c /\ x ∈ ids c.
Proof.
  rewrite elem_of_concat. split.
  - intros (l & Hx & (c & -> & (i & Hc)%list_elem_of_lookup)%list_elem_of_fmap). by exists i, c.
  - intros (i & c & Hc & Hx). exists (ids c). split; [ done | ].
    apply list_elem_of_fmap. exists c. split; [ done | by eapply list_elem_of_lookup_2 ].
Qed.

(** Every id below a node extends the node's id by segments. *)
Lemma ids_subtree_tail v : forall path k x,
  x ∈ ids (subtree path k v) -> exists r, x = path +:+ r /\ tail_ok r.
Proof.
  induction v as [v IH] using json_members_ind. intros path k x.
  rewrite ids_unfold, id_subtree. intros [ -> | Hx ]%elem_of_cons.
  - exists "". by rewrite append_nil_r.
  - apply elem_of_ids_children in Hx as (i & c & Hc & Hx).
    apply subtree_child in Hc as (ch & seg & k' & m & Hch & -> & Hm).
    eapply Forall_forall in IH; [ | exact Hm ].
    destruct (IH _ _ _ Hx) as (r & -> & Hr).
    exists (String ch seg +:+ r). by rewrite append_assoc.
Qed.

Lemma ids_subtree_proper path k v i c x :
  children (subtree path k v) !! i = Some c -> x ∈ ids c -> x <> path.
Proof.
  intros (ch & seg & k' & m & Hch & -> & Hm)%subtree_child (r & -> & _)%ids_subtree_tail Heq.
  rewrite append_assoc in Heq. by apply append_inv_l in Heq.
Qed.

Lemma NoDup_concat {A} (ls : list (list A)) :
  (forall i l, ls !! i = Some l -> NoDup l) ->
  (forall i j l1 l2 x, ls !! i = Some l1 -> ls !! j = Some l2 ->
                       x ∈ l1 -> x ∈ l2 -> i = j) ->
  NoDup (concat ls).
Proof.
  induction ls as [ | l ls IH ]; intros Hnd Hapart; [ constructor | ].
  cbn [concat]. apply NoDup_app. split; [ by apply (Hnd 0%nat) | split ].
  - intros x Hx (l' & Hx' & (j & Hj)%list_elem_of_lookup)%elem_of_concat.
    by specialize (Hapart 0%nat (S j) l l' x eq_refl Hj Hx Hx').
  - apply IH.
    + intros i l' Hi. by apply (Hnd (S i)).
    + intros i j l1 l2 x Hi Hj H1 H2.
      specialize (Hapart (S i) (S j) l1 l2 x Hi Hj H1 H2). lia.
Qed.

(** With plain keys, no two nodes of the tree of a document share an id. *)
Lemma NoDup_ids_subtree v : forall path k,
  wf_json v -> plain_keys v -> NoDup (ids (subtree path k v)).
Proof.
  induction v as [v IH] using json_members_ind. intros path k Hwf Hpl.
  rewrite ids_unfold, id_subtree. apply NoDup_cons. split.
  - intros (i & c & Hc & Hx)%elem_of_ids_children.
    by eapply ids_subtree_proper.
  - apply NoDup_concat.
    + intros i l. rewrite list_lookup_fmap.
      destruct (children (subtree path k v) !! i) as [ c | ] eqn:Hc; [ | done ].
      intros [= <-].
      apply subtree_child in Hc as (ch & seg & k' & m & _ & -> & Hm).
      eapply Forall_forall in IH; [ | exact Hm ].
      apply IH; [ by eapply wf_json_member | by eapply plain_keys_member ].
    + intros i j l1 l2 x. rewrite !list_lookup_fmap.
      destruct (children (subtree path k v) !! i) as [ c1 | ] eqn:Hc1; [ | done ].
      destruct (children (subtree path k v) !! j) as [ c2 | ] eqn:Hc2; [ | done ].
      intros [= <-] [= <-] Hx1 Hx2.
      pose proof Hc1 as (ch1 & seg1 & k1 & m1 & _ & E1 & _)%subtree_child.
      pose proof Hc2 as (ch2 & seg2 & k2 & m2 & _ & E2 & _)%subtree_child.
      rewrite E1 in Hx1. rewrite E2 in Hx2.
      apply ids_subtree_tail in Hx1 as (r1 & -> & Hr1).
      apply ids_subtree_tail in Hx2 as (r2 & Hx2 & Hr2).
      eapply (subtree_children_apart path k v i j c1 c2 r1 r2); try done.
      by rewrite E1, E2, !id_subtree.
Qed.

Lemma key_subtree path k v : key (subtree path k v) = k.
Proof. by destruct v. Qed.

Lemma type_subtree path k v : type (subtree path k v) = detectType v.
Proof. by destruct v. Qed.

Lemma plain_keys_own props k v :
  Forall (fun kv => plain kv.1 = true /\ plain_keys kv.2) props ->
  own props k = Some v -> plain_keys v.
Proof.
  induction 1 as [ | [k' v'] props [_ Hkv] _ IH ]; [ done | ]. simpl.
  destruct (String.eqb k' k); [ by intros [= <-] | exact IH ].
Qed.

Lemma root_cell_plain data rootKey :
  plain_keys data -> plain_keys (c_value (root_cell data rootKey)).
Proof.
  intros Hpl. unfold root_cell. cbn [c_type].
  destruct data as [ | | | | items | props ]; try done. cbn [detectType].
  destruct (keys props) as [ | k [ | k' ks ] ]; try done. cbn [c_value].
  unfold prop. destruct (own props k) as [ v | ] eqn:E; [ | done ].
  apply plain_keys_obj in Hpl. by eapply plain_keys_own.
Qed.

(** C5, as the code has it. In the tree of a well-formed document the id of
    a child is its parent's id followed by ["."] and the child's key under
    an object, or by the child's index in brackets under an array; and the
    ids of the tree are pairwise distinct when no object key of the
    document contains ["."] or ["["]. *)
Theorem buildTree_ids (data : json) (rootKey : string) :
  wf_json data ->
  (forall n i c,
      n ∈ nodes_of (buildTree data rootKey) -> children n !! i = Some c ->
      (type n = KObject /\ id c = id n +:+ "." +:+ key c) \/
      (type n = KArray /\ key c = pretty i /\
       id c = id n +:+ "[" +:+ pretty i +:+ "]")) /\
  (plain_keys data -> NoDup (ids (buildTree data rootKey))).
Proof.
  intros Hwf. rewrite buildTree_subtree by done. unfold tree_of_cell. split.
  - intros n i c (p & k & v & ->)%nodes_subtree_form Hc.
    rewrite type_subtree, id_subtree.
    apply subtree_children_lookup in Hc
      as [ (props & k' & x & -> & Hx & ->) | (items & x & -> & Hx & ->) ];
      rewrite id_subtree, key_subtree; [ by left | by right ].
  - intros Hpl. apply NoDup_ids_subtree.
    + by destruct (root_cell_ok data rootKey Hwf) as (_ & _ & Hwf').
    + by apply root_cell_plain.
Qed.

Lemma wf_doc_flat : wf_json doc_flat.
Proof.
  simpl. repeat split. apply NoDup_cons. split; [ | apply NoDup_singleton ].
  by intros [= ]%list_elem_of_singleton.
Qed.

Lemma buildTree_ids_witness :
  wf_json doc_flat /\ plain_keys doc_flat /\ NoDup (ids (buildTree doc_flat "root")).
Proof.
  assert (plain_keys doc_flat) as Hpl by (simpl; tauto).
  split; [ exact wf_doc_flat | split; [ exact Hpl | ] ].
  destruct (buildTree_ids doc_flat "root" wf_doc_flat) as [_ Hnd]. by apply Hnd.
Defined.

Lemma wf_doc_dotted : wf_json doc_dotted.
Proof.
  simpl. repeat split; try apply NoDup_singleton.
  apply NoDup_cons. split; [ | apply NoDup_singleton ].
  by intros [= ]%list_elem_of_singleton.
Qed.

(** C5, as stated, fails: [{"a.b": 1, "a": {"b": 2}}] is a valid document
    and its tree holds the id [$.a.b] twice, once for the key ["a.b"] of the
    root and once for the key ["b"] below ["a"]. *)
Lemma buildTree_ids_counterexample :
  wf_json doc_dotted /\
  ids (buildTree doc_dotted "root") = ["$"; "$.a.b"; "$.a"; "$.a.b"] /\
  ~ NoDup (ids (buildTree doc_dotted "root")).
Proof.
  split; [ exact wf_doc_dotted | ].
  assert (ids (buildTree doc_dotted "root") = ["$"; "$.a.b"; "$.a"; "$.a.b"]) as E
    by reflexivity.
  split; [ exact E | ]. rewrite E. intros Hnd.
  apply NoDup_cons in Hnd as [_ Hnd]. apply NoDup_cons in Hnd as [Hnin _].
  apply Hnin. right. left.
Qed.

(** ** Rendered ids *)

Lemma graph_node_ids data h n :
  wf_json data ->
  n ∈ nodes (buildGraph data h) ->
  n_id n ∈ ids (tree_of_cell (root_cell data "root")).
Proof.
  intros Hwf. unfold buildGraph. rewrite mapToFlow_spec. cbn [nodes].
  intros (m & -> & Hm)%list_elem_of_fmap. cbn [flow_node_of n_id].
  rewrite visit_order_Permutation in Hm.
  rewrite <- (buildTree_subtree data "root" Hwf).
  rewrite <- (erase_pipeline (buildTree data "root") 0 0 H_GAP V_GAP).
  unfold ids. rewrite ids_erase. apply list_elem_of_fmap. by exists m.
Qed.

(** Re-anchoring moves the nodes and keeps their ids and the edges. *)
Lemma reanchor_ids g : n_id <$> nodes (reanchor g) = n_id <$> nodes g.
Proof.
  unfold reanchor. destruct (nodes g) as [ | n0 ns ] eqn:E; [ by rewrite E | ].
  cbn [nodes]. by rewrite <- list_fmap_compose.
Qed.

Lemma reanchor_edges g : edges (reanchor g) = edges g.
Proof. unfold reanchor. by destruct (nodes g). Qed.

(** C10. When the document is an object with exactly one key [k], every
    node the pipeline emits has an id that starts with [$.k], none has the
    id [$]; the resolver answers the empty query with the canonical id [$],
    which therefore is the id of no emitted node. *)
Theorem collapsed_tree_has_no_root_id (k : string) (v : json) (h : option string) :
  wf_json (JObj [(k, v)]) ->
  (forall n, n ∈ nodes (buildGraph (JObj [(k, v)]) h) ->
             n_id n <> "$" /\ exists r, n_id n = "$." +:+ k +:+ r) /\
  exists res, findByPath (JObj [(k, v)]) (parsePath "") = Some res /\
              f_path res = "$" /\
              forall n, n ∈ nodes (buildGraph (JObj [(k, v)]) h) ->
                        n_id n <> f_path res.
Proof.
  intros Hwf.
  assert (forall n, n ∈ nodes (buildGraph (JObj [(k, v)]) h) ->
                    n_id n <> "$" /\ exists r, n_id n = "$." +:+ k +:+ r) as Hids.
  { intros n Hn%graph_node_ids; [ | done ].
    unfold tree_of_cell in Hn. cbn [root_cell detectType c_type keys fmap list_fmap fst c_id c_key c_value] in Hn.
    apply ids_subtree_tail in Hn as (r & -> & _).
    rewrite append_assoc. split; [ done | by exists r ]. }
  split; [ exact Hids | ].
  exists (Found (Doc (JObj [(k, v)])) "$"). split; [ done | split; [ done | ] ].
  intros n Hn. by apply Hids.
Qed.

Lemma collapsed_tree_has_no_root_id_witness :
  Forall (fun n => n_id n <> "$") (nodes (buildGraph doc_nested None)).
Proof.
  assert (wf_json doc_nested) as Hwf
    by (simpl; repeat split; apply NoDup_singleton).
  destruct (collapsed_tree_has_no_root_id "a" (JObj [("b", JNum 1)]) None Hwf) as [Hids _].
  apply Forall_forall. intros n Hn. by apply Hids.
Defined.

(** ** parsePath: the fuel of the character loop *)

Lemma index_ge s1 s2 : forall n m, String.index n s1 s2 = Some m -> (n <= m)%nat.
Proof.
  induction s2 as [ | b s2 IH ]; intros [ | n ] m; simpl; try lia; try done.
  destruct (String.index n s1 s2) as [ j | ] eqn:E; [ | done ].
  intros [= <-]. apply IH in E. lia.
Qed.

Lemma get_lt s : forall i c, String.get i s = Some c -> (i < String.length s)%nat.
Proof.
  induction s as [ | b s IH ]; intros [ | i ] c; simpl; try done; try lia.
  intros H%IH. lia.
Qed.

(** Any fuel above the number of characters left gives the same tokens:
    the loop stops because it runs out of characters. *)
Lemma parsePath_loop_fuel s : forall f1 f2 i tokens buf,
  (String.length s - i < f1)%nat -> (String.length s - i < f2)%nat ->
  parsePath_loop f1 s i tokens buf = parsePath_loop f2 s i tokens buf.
Proof.
  induction f1 as [ | f1 IH ]; intros [ | f2 ] i tokens buf H1 H2; try lia.
  cbn [parsePath_loop]. destruct (String.get i s) as [ ch | ] eqn:G; [ | done ].
  apply get_lt in G.
  destruct (Ascii.eqb ch "."); [ apply IH; lia | ].
  destruct (Ascii.eqb ch "["); [ | apply IH; lia ].
  destruct (JS.indexOf s "]" i) as [ j | ] eqn:E; [ | done ].
  apply index_ge in E.
  destruct (JS.Number_integer (JS.slice s (i + 1) j)); [ apply IH; lia | done ].
Qed.

(** ** findByPath *)

Lemma canonical_from_cons path t tokens :
  canonical_from path (t :: tokens) = canonical_from (path +:+ segment t) tokens.
Proof. done. Qed.



Lemma mem_elem_of k l : mem k l = true <-> k ∈ l.
Proof.
  unfold mem. rewrite existsb_exists. split.
  - intros (x & Hx & ->%String.eqb_eq). by apply list_elem_of_In.
  - intros H. exists k. split; [ by apply list_elem_of_In | apply String.eqb_refl ].
Qed.




(** C8. The query [$] and the empty query, tokenized by [parsePath] and
    resolved by [findByPath], return the document itself under the
    canonical id [$]. *)
Theorem root_query_roundtrip (v : json) :
  findByPath v (parsePath "$") = Some (Found (Doc v) "$") /\
  findByPath v (parsePath "") = Some (Found (Doc v) "$").
Proof.
  assert (parsePath "$" = []) as -> by (vm_compute; reflexivity).
  assert (parsePath "" = []) as -> by (vm_compute; reflexivity).
  done.
Qed.

(** C7: the brackets [[]] are accepted. [Number('')] is [0], an integer, so
    the empty bracket contents pass the integer test and [parsePath] returns
    the index token [0] where an empty token sequence is required. *)
Theorem parsePath_empty_brackets :
  parsePath "[]" = [TIdx 0] /\
  parsePath "a[]" = [TKey "a"; TIdx 0] /\
  parsePath "a[ ]" = [TKey "a"; TIdx 0] /\
  findByPath (JArr [JNum 10; JNum 20]) (parsePath "[]")
    = Some (Found (Doc (JNum 10)) "$[0]") /\
  parsePath "a[x]" = [] /\ parsePath "a[" = [].
Proof. repeat split; vm_compute; reflexivity. Qed.

(** ** onSearch: the two ways to find nothing *)

Lemma length_eqb_nil {A} (l : list A) : (length l =? 0)%nat = true <-> l = [].
Proof. destruct l; simpl; split; done. Qed.

(** The query does not tokenize: only the status changes. *)
Lemma onSearch_not_tokenized st :
  falsy (raw st) = false -> parsePath (query st) = [] ->
  truthy (JS.trim (query st)) = true ->
  onSearch st = set_status "No match found" st.
Proof. intros Hraw Htok Hq. unfold onSearch. by rewrite Hraw, Htok, Hq. Qed.

(** The path does not resolve: the status changes and the highlight id is
    cleared; the graph stays. *)
Lemma onSearch_not_resolved st :
  falsy (raw st) = false -> parsePath (query st) <> [] ->
  findByPath (raw st) (parsePath (query st)) = None ->
  onSearch st = set_highlightId None (set_status "No match found" st).
Proof.
  intros Hraw Htok Hres. unfold onSearch. rewrite Hraw.
  destruct (length (parsePath (query st)) =? 0)%nat eqn:E.
  - by apply length_eqb_nil in E.
  - cbn [andb]. by rewrite Hres.
Qed.

(** Blank bracket contents convert to the integer 0. *)
Lemma Number_integer_blank s : JS.trim s = "" -> JS.Number_integer s = Some 0.
Proof. intros H. unfold JS.Number_integer. by rewrite H. Qed.

(** C9: a query that fails to tokenize leaves the highlight id in place.
    After a successful search for the key [a] the highlight id is [$.a]. A
    search for the key [a] followed by an opening bracket then reports no
    match and keeps the graph, but keeps the highlight id [$.a] as well,
    whereas the search for the missing key [c], on the branch for a path
    that does not resolve, clears it. *)
Theorem onSearch_tokenize_failure_keeps_highlight :
  highlightId st_matched = Some "$.a" /\
  parsePath "a[" = [] /\
  status (onSearch (set_query "a[" st_matched)) = "No match found" /\
  current (onSearch (set_query "a[" st_matched)) = current st_matched /\
  highlightId (onSearch (set_query "a[" st_matched)) = Some "$.a" /\
  status (onSearch (set_query "c" st_matched)) = "No match found" /\
  current (onSearch (set_query "c" st_matched)) = current st_matched /\
  highlightId (onSearch (set_query "c" st_matched)) = None.
Proof. repeat split; vm_compute; reflexivity. Qed.

(** * Scenarios *)

(** [{"a": {"b": 1}}]: the root collapses to the key [a], with the single
    child [b], labelled [b: 1]; two nodes, one edge. *)
Example scenario_collapsed_root :
  id (buildTree doc_nested "root") = "$.a" /\
  key (buildTree doc_nested "root") = "a" /\
  type (buildTree doc_nested "root") = KObject /\
  (id <$> children (buildTree doc_nested "root")) = ["$.a.b"] /\
  (label <$> nodes (buildGraph doc_nested None)) = ["a"; "b: 1"] /\
  length (edges (buildGraph doc_nested None)) = 1%nat.
Proof. repeat split; vm_compute; reflexivity. Qed.

(** [{"x": 1, "y": 2}]: no collapse; three nodes, two edges. *)
Example scenario_flat_root :
  id (buildTree doc_flat "root") = "$" /\
  (labelFor <$> children (buildTree doc_flat "root")) = ["x: 1"; "y: 2"] /\
  length (nodes (buildGraph doc_flat None)) = 3%nat /\
  length (edges (buildGraph doc_flat None)) = 2%nat.
Proof. repeat split; vm_compute; reflexivity. Qed.

(** [[1, 2, 3]] with the query [[1]]. *)
Example scenario_array_index :
  findByPath (JArr [JNum 1; JNum 2; JNum 3]) (parsePath "[1]")
  = Some (Found (Doc (JNum 2)) "$[1]").
Proof. vm_compute. reflexivity. Qed.

(** The query [user.address.city]. *)
Example scenario_nested_keys :
  findByPath doc_city (parsePath "user.address.city")
  = Some (Found (Doc (JStr "Bangalore")) "$.user.address.city").
Proof. vm_compute. reflexivity. Qed.

(** Text that does not parse: no graph, no document. *)
Example scenario_parse_error :
  error (generate None (st_generated doc_flat)) = "Invalid JSON" /\
  current (generate None (st_generated doc_flat)) = Graph [] [] /\
  raw (generate None (st_generated doc_flat)) = JNull.
Proof. repeat split. Qed.

(** The query [foo.bar] against a document without the key [foo]. *)
Example scenario_not_found :
  status (onSearch (set_query "foo.bar" st_matched)) = "No match found" /\
  highlightId (onSearch (set_query "foo.bar" st_matched)) = None /\
  current (onSearch (set_query "foo.bar" st_matched)) = current st_matched.
Proof. repeat split; vm_compute; reflexivity. Qed.

(** * Further properties of the engine *)

(** ** The shape of the built tree *)

Lemma value_subtree path k v : value (subtree path k v) = v.
Proof. by destruct v. Qed.

(** X1. In the tree of a well-formed document every node has the kind of
    its value, and its children follow the value in source order: one child
    per key of an object, with the keys and the values in [Object.keys]
    order; one child per element of an array, keyed by the index; none for
    a primitive. *)
Theorem buildTree_children_in_order (data : json) (rootKey : string) (n : tree unit) :
  wf_json data ->
  n ∈ nodes_of (buildTree data rootKey) ->
  type n = detectType (value n) /\
  match value n with
  | JObj props =>
      key <$> children n = keys props /\ value <$> children n = props.*2
  | JArr items =>
      key <$> children n = pretty <$> seq 0 (length items) /\
      value <$> children n = items
  | _ => children n = []
  end.
Proof.
  intros Hwf Hn. rewrite buildTree_subtree in Hn by done.
  apply nodes_subtree_form in Hn as (p & k & v & ->).
  rewrite type_subtree, value_subtree. split; [ done | ].
  destruct v as [ | | | | items | props ]; try done.
  - rewrite subtree_arr_children, !fmap_imap. split.
    + rewrite <- (imap_seq_0 items pretty). apply imap_ext. intros i x _.
      unfold compose. apply key_subtree.
    + apply list_eq. intros i. rewrite list_lookup_imap.
      destruct (items !! i) as [ x | ]; [ | done ]. simpl. f_equal. apply value_subtree.
  - rewrite subtree_obj_children, <- !list_fmap_compose. unfold keys.
    split; apply list_fmap_ext; intros i [k' x] _; unfold compose; simpl;
      [ apply key_subtree | apply value_subtree ].
Qed.

Lemma buildTree_children_in_order_witness :
  key <$> children (buildTree doc_flat "root") = ["x"; "y"] /\
  value <$> children (buildTree doc_flat "root") = [JNum 1; JNum 2].
Proof.
  destruct (buildTree_children_in_order doc_flat "root" _ wf_doc_flat (nodes_of_self _))
    as [_ H].
  exact H.
Defined.

(** ** What the width and layout passes leave alone *)

Lemma widths_nodes_of_layoutTree xGap yGap (w : tree Z) : forall x d,
  (fun n => p_width (ann n)) <$> nodes_of (layoutTree w x d xGap yGap)
  = width <$> nodes_of w.
Proof.
  induction w as [i k ty v a cs IH] using tree_ind. intros x d.
  rewrite !nodes_of_unfold, !fmap_cons, ann_layoutTree, children_layoutTree.
  cbn [p_width children]. f_equal.
  generalize x. induction IH as [ | c cs Hc _ IHcs ]; intros x'; [ done | ].
  cbn [layout_each]. rewrite !fmap_cons. cbn [concat]. by rewrite !fmap_app, Hc, IHcs.
Qed.

(** X2. [computeWidths] and [layoutTree] only add the width and the
    position: without them the laid-out tree is the tree they were given,
    with every id, key, kind, value and child in place; and [layoutTree]
    keeps the widths that [computeWidths] stored. *)
Theorem passes_keep_the_tree (t : tree unit) (xStart depth xGap yGap : Z) :
  erase (layoutTree (computeWidths t) xStart depth xGap yGap) = t /\
  erase (computeWidths t) = t /\
  (fun n => p_width (ann n))
    <$> nodes_of (layoutTree (computeWidths t) xStart depth xGap yGap)
  = width <$> nodes_of (computeWidths t).
Proof.
  split; [ apply erase_pipeline | split; [ apply erase_computeWidths | ] ].
  apply widths_nodes_of_layoutTree.
Qed.

(** ** Levels *)



(** ** The node and edge lists of [mapToFlow] *)

Lemma elem_of_edge_order {A} (t : tree A) e :
  e ∈ edge_order t <->
  exists n c, n ∈ nodes_of t /\ c ∈ children n /\ e = flow_edge_of n c.
Proof.
  induction t as [i k ty v a cs IH] using tree_ind.
  rewrite edge_order_unfold, elem_of_app, list_elem_of_fmap, elem_of_concat.
  cbn [children]. split.
  - intros [ (c & -> & Hc) | (l & He & Hl) ].
    + eexists _, c. split; [ apply nodes_of_self | done ].
    + rewrite elem_of_reverse in Hl. apply list_elem_of_fmap in Hl as (c & -> & Hc).
      eapply Forall_forall in IH; [ | exact Hc ].
      apply IH in He as (n & c' & Hn & Hc' & ->).
      exists n, c'. split; [ | done ]. by eapply nodes_of_child.
  - intros (n & c & Hn & Hc & ->).
    apply nodes_of_inv in Hn as [ -> | (c0 & Hc0 & Hn) ].
    + left. by exists c.
    + right. exists (edge_order c0). split.
      * eapply Forall_forall in IH; [ | exact Hc0 ]. apply IH. by exists n, c.
      * rewrite elem_of_reverse. apply list_elem_of_fmap. by exists c0.
Qed.

(** X4. The edges that [mapToFlow] emits are exactly the parent-child
    pairs of the tree, each from the parent's id to the child's id and named
    [parent->child]; so both ends of every edge are ids of emitted nodes. *)
Theorem mapToFlow_edges (t : tree placed) (colors : palette) (h : option string)
  (e : flow_edge) :
  e ∈ edges (mapToFlow t colors h) ->
  (exists n c, n ∈ nodes_of t /\ c ∈ children n /\
               source e = id n /\ target e = id c /\
               e_id e = id n +:+ "->" +:+ id c /\
               e_type e = "smoothstep" /\ animated e = false) /\
  source e ∈ n_id <$> nodes (mapToFlow t colors h) /\
  target e ∈ n_id <$> nodes (mapToFlow t colors h).
Proof.
  rewrite mapToFlow_spec. cbn [edges nodes].
  intros (n & c & Hn & Hc & ->)%elem_of_edge_order.
  assert (forall m, m ∈ nodes_of t ->
            id m ∈ n_id <$> (flow_node_of colors h <$> visit_order t)) as Hemit.
  { intros m Hm. rewrite <- list_fmap_compose. apply list_elem_of_fmap.
    exists m. split; [ done | by rewrite visit_order_Permutation ]. }
  split; [ by exists n, c | ]. cbn [flow_edge_of source target]. split.
  - by apply Hemit.
  - apply Hemit. eapply nodes_of_trans; [ exact Hn | ].
    eapply nodes_of_child; [ exact Hc | apply nodes_of_self ].
Qed.

Lemma mapToFlow_edges_witness :
  (source <$> edges (buildGraph doc_flat None)) = ["$"; "$"] /\
  Forall (fun e => target e ∈ n_id <$> nodes (buildGraph doc_flat None))
         (edges (buildGraph doc_flat None)).
Proof.
  split; [ reflexivity | ].
  apply Forall_forall. intros e He.
  by destruct (mapToFlow_edges _ NODE_COLORS None e He) as (_ & _ & H).
Defined.

(** X5. Conversely every parent-child pair of the tree has its edge, and
    every node of the tree is emitted exactly once, with its id, its
    position and its label: the node list is a permutation of the nodes of
    the tree. *)
Theorem mapToFlow_complete (t : tree placed) (colors : palette) (h : option string) :
  nodes (mapToFlow t colors h) ≡ₚ flow_node_of colors h <$> nodes_of t /\
  (forall n c, n ∈ nodes_of t -> c ∈ children n ->
               flow_edge_of n c ∈ edges (mapToFlow t colors h)).
Proof.
  rewrite mapToFlow_spec. cbn [edges nodes]. split.
  - by rewrite visit_order_Permutation.
  - intros n c Hn Hc. apply elem_of_edge_order. by exists n, c.
Qed.

(** ** Highlighting *)

Lemma pick_not_highlight ty : pick NODE_COLORS ty <> highlight NODE_COLORS.
Proof. by destruct ty. Qed.

Lemma is_highlight_spec i h : is_highlight i h = true <-> h = Some i.
Proof.
  destruct h as [ j | ]; cbn [is_highlight]; [ | done ].
  rewrite String.eqb_eq. split; [ by intros -> | by intros [= ->] ].
Qed.

Lemma flow_node_highlighted (h : option string) (m : tree placed) :
  highlighted (flow_node_of NODE_COLORS h m) <-> h = Some (id m).
Proof.
  unfold highlighted. cbn [flow_node_of n_style background]. unfold colorFor.
  rewrite <- is_highlight_spec.
  destruct (is_highlight (id m) h); [ done | ].
  split; [ intros H; by apply pick_not_highlight in H | done ].
Qed.

(** X6. With the colours of the application a node is drawn in the
    highlight colour exactly when its id is the highlight id; so without a
    highlight id no node is, and every node then has the colour of its
    kind. *)
Theorem mapToFlow_highlight (t : tree placed) (h : option string) :
  Forall (fun n => highlighted n <-> h = Some (n_id n))
         (nodes (mapToFlow t NODE_COLORS h)) /\
  background ∘ n_style <$> nodes (mapToFlow t NODE_COLORS None)
  = pick NODE_COLORS ∘ type <$> visit_order t.
Proof.
  rewrite !mapToFlow_spec. cbn [nodes]. split.
  - apply Forall_fmap, Forall_forall. intros m _. apply flow_node_highlighted.
  - rewrite <- list_fmap_compose. by apply list_fmap_ext.
Qed.

Lemma reanchor_nodes g :
  nodes (reanchor g) =
  shifted (40 - fold_left Z.min (pos_x ∘ n_position <$> nodes g)
                          (from_option (pos_x ∘ n_position) 0 (head (nodes g))))
    <$> nodes g.
Proof.
  unfold reanchor. destruct (nodes g) as [ | n0 ns ] eqn:E; [ by rewrite E | ].
  cbn [nodes head from_option]. apply list_fmap_ext. intros _ n _.
  unfold shifted, compose. do 2 f_equal. lia.
Qed.

Lemma reanchor_unstyled {A} (f f' : A -> flow_node) (l : list A) es es' :
  (forall x, unstyled (f x) = unstyled (f' x)) ->
  unstyled <$> nodes (reanchor (Graph (f <$> l) es))
  = unstyled <$> nodes (reanchor (Graph (f' <$> l) es')).
Proof.
  intros Hu.
  assert (forall x, n_position (f x) = n_position (f' x)) as Hp.
  { intros x. specialize (Hu x). unfold unstyled in Hu. congruence. }
  rewrite !reanchor_nodes. cbn [nodes].
  assert (forall g : A -> flow_node,
            head (g <$> l) = g <$> head l) as Hhead by (intros; by destruct l).
  rewrite !Hhead. rewrite <- !list_fmap_compose.
  rewrite (list_fmap_ext (pos_x ∘ n_position ∘ f) (pos_x ∘ n_position ∘ f') l)
    by (intros; unfold compose; by rewrite Hp).
  assert (from_option (pos_x ∘ n_position) 0 (f <$> head l)
          = from_option (pos_x ∘ n_position) 0 (f' <$> head l)) as ->.
  { destruct (head l); [ | done ]. cbn. by rewrite Hp. }
  apply list_fmap_ext. intros _ x _. unfold compose, unstyled, shifted. cbn.
  specialize (Hu x). unfold unstyled in Hu. rewrite (Hp x). congruence.
Qed.

(** X7. The highlight id changes the style of nodes and nothing else: the
    ids, positions, labels and tooltips of the nodes and the whole edge list
    are the same for every highlight id, before and after re-anchoring. A
    search therefore redraws the graph where [generate] drew it. *)
Theorem highlight_changes_style_only (t : tree placed) (colors : palette)
  (h h' : option string) :
  unstyled <$> nodes (mapToFlow t colors h)
  = unstyled <$> nodes (mapToFlow t colors h') /\
  edges (mapToFlow t colors h) = edges (mapToFlow t colors h') /\
  unstyled <$> nodes (reanchor (mapToFlow t colors h))
  = unstyled <$> nodes (reanchor (mapToFlow t colors h')) /\
  edges (reanchor (mapToFlow t colors h))
  = edges (reanchor (mapToFlow t colors h')).
Proof.
  rewrite !reanchor_edges, !mapToFlow_spec. cbn [nodes edges].
  split; [ | split; [ done | split; [ | done ] ] ].
  - rewrite <- !list_fmap_compose. by apply list_fmap_ext.
  - by apply reanchor_unstyled.
Qed.

(** ** Re-anchoring *)

Lemma fold_left_min l : forall a,
  fold_left Z.min l a <= a /\
  Forall (fun x => fold_left Z.min l a <= x) l /\
  fold_left Z.min l a ∈ a :: l.
Proof.
  induction l as [ | b l IH ]; intros a; cbn [fold_left].
  - split; [ lia | split; [ constructor | by left ] ].
  - destruct (IH (Z.min a b)) as (Hle & Hall & Hin). split; [ lia | split ].
    + constructor; [ lia | done ].
    + apply elem_of_cons in Hin as [ Hin | Hin ].
      * rewrite Hin. destruct (Z.min_spec a b) as [ [_ ->] | [_ ->] ];
          [ by left | right; by left ].
      * right. by right.
Qed.

(** X8. Re-anchoring a graph that has a node moves every node by one and
    the same horizontal distance and changes nothing else; afterwards no
    node lies left of [x = 40] and some node lies exactly there. The edges
    stay. *)
Theorem reanchor_left_margin (g : graph) :
  nodes g <> [] ->
  (exists dx, nodes (reanchor g) = shifted dx <$> nodes g) /\
  Forall (fun n => 40 <= pos_x (n_position n)) (nodes (reanchor g)) /\
  Exists (fun n => pos_x (n_position n) = 40) (nodes (reanchor g)) /\
  edges (reanchor g) = edges g.
Proof.
  intros Hne. unfold reanchor.
  destruct (nodes g) as [ | n0 ns ] eqn:E; [ done | ]. cbn [nodes edges].
  set (minX := fold_left Z.min _ _).
  destruct (fold_left_min (pos_x ∘ n_position <$> n0 :: ns) (pos_x (n_position n0)))
    as (_ & Hall & Hin). fold minX in Hall, Hin.
  split; [ | split; [ | split; [ | done ] ] ].
  - exists (40 - minX). apply list_fmap_ext. intros _ n _. unfold shifted.
    do 2 f_equal. lia.
  - apply Forall_fmap, Forall_forall. intros n Hn. cbn.
    rewrite Forall_fmap, Forall_forall in Hall. specialize (Hall n Hn). cbn in Hall. lia.
  - assert (minX ∈ pos_x ∘ n_position <$> n0 :: ns) as Hin'.
    { apply elem_of_cons in Hin as [ -> | Hin ]; [ | done ]. rewrite fmap_cons. by left. }
    apply list_elem_of_fmap in Hin' as (n & Hx & Hn).
    apply Exists_exists. eexists. split.
    + apply list_elem_of_fmap. by exists n.
    + cbn. cbn in Hx. lia.
Qed.

Lemma reanchor_left_margin_witness :
  Forall (fun n => 40 <= pos_x (n_position n))
         (nodes (reanchor (buildGraph doc_flat None))) /\
  edges (reanchor (buildGraph doc_flat None)) = edges (buildGraph doc_flat None).
Proof.
  destruct (reanchor_left_margin (buildGraph doc_flat None)) as (_ & H & _ & He);
    [ discriminate | ].
  split; [ exact H | exact He ].
Defined.

(** ** Every node can be reached by its id *)

Lemma pretty_Z_of_nat (i : nat) : pretty (Z.of_nat i) = pretty i.
Proof. by destruct i. Qed.

Lemma searchable_doc_arr items :
  searchable_doc (JArr items) <->
  Z.of_nat (length items) <= 2 ^ 32 - 1 /\ Forall searchable_doc items.
Proof.
  cbn [searchable_doc]. apply and_iff_compat_l.
  induction items as [ | x items IH ]; [ by split; [ constructor | ] | ].
  rewrite Forall_cons, <- IH. done.
Qed.

Lemma searchable_doc_obj props :
  searchable_doc (JObj props) <->
  Forall (fun kv => searchable_key kv.1 = true /\ searchable_doc kv.2) props.
Proof.
  cbn [searchable_doc].
  induction props as [ | kv props IH ]; [ by split; [ constructor | ] | ].
  rewrite Forall_cons, <- IH. done.
Qed.

Lemma subtree_tokens v : forall path k m,
  wf_json v -> m ∈ nodes_of (subtree path k v) ->
  exists tokens,
    id m = canonical_from path tokens /\
    (forall p, findByPath_loop (Doc v) p tokens
               = Some (Found (Doc (value m)) (canonical_from p tokens))) /\
    (searchable_doc v -> Forall searchable tokens).
Proof.
  induction v as [ | | | | items IH | props IH ] using json_ind; intros path k m Hwf Hn;
    apply nodes_of_inv in Hn as [ -> | (c & Hc & Hn) ];
    try (exists []; by rewrite id_subtree, value_subtree);
    try (by apply elem_of_nil in Hc);
    apply list_elem_of_lookup in Hc as (i & Hc);
    apply subtree_children_lookup in Hc
      as [ (props' & k' & x & [= <-] & Hx & ->) | (items' & x & [= <-] & Hx & ->) ].
  - apply wf_json_arr in Hwf.
    eapply Forall_lookup_1 in IH; [ | exact Hx ].
    destruct (IH _ _ _ (Forall_lookup_1 _ _ _ _ Hwf Hx) Hn) as (ts & Hid & Hfind & Hs).
    pose proof (lookup_lt_Some _ _ _ Hx) as Hlt.
    exists (TIdx (Z.of_nat i) :: ts). split; [ | split ].
    + by rewrite canonical_from_cons, Hid; cbn [segment]; rewrite pretty_Z_of_nat.
    + intros p. cbn [findByPath_loop as_array].
      replace (Z.of_nat i <? 0) with false by lia.
      replace (Z.of_nat (length items) <=? Z.of_nat i) with false by lia.
      cbn [orb]. rewrite Nat2Z.id, Hx. cbn [default].
      by rewrite Hfind, canonical_from_cons.
    + intros [Hlen Hall]%searchable_doc_arr. constructor.
      * cbn [searchable]. unfold MAX_SAFE_INTEGER. 
        assert (2 ^ 32 <= 2 ^ 53) by (apply Z.pow_le_mono_r; lia). lia.
      * apply Hs. by eapply Forall_lookup_1 in Hall.
  - apply wf_json_obj in Hwf as [Hnd Hwf].
    eapply Forall_lookup_1 in IH; [ | exact Hx ].
    pose proof (Forall_lookup_1 _ _ _ _ Hwf Hx) as Hwfx.
    destruct (IH _ _ _ Hwfx Hn) as (ts & Hid & Hfind & Hs).
    apply list_elem_of_lookup_2 in Hx.
    exists (TKey k' :: ts). split; [ | split ].
    + by rewrite canonical_from_cons, Hid.
    + intros p. cbn [findByPath_loop is_null typeof_object negb orb has_property get_property].
      assert (mem k' (keys props) = true) as ->.
      { apply mem_elem_of. unfold keys. apply list_elem_of_fmap. by exists (k', x). }
      cbn [orb negb]. rewrite (own_lookup _ _ _ Hnd Hx).
      by rewrite Hfind, canonical_from_cons.
    + intros Hall%searchable_doc_obj. eapply Forall_forall in Hall; [ | exact Hx ].
      destruct Hall as [Hk Hx']. constructor; [ exact Hk | by apply Hs ].
Qed.

Lemma root_cell_tokens data rootKey n :
  wf_json data -> n ∈ nodes_of (tree_of_cell (root_cell data rootKey)) ->
  exists tokens,
    id n = canonical_from "$" tokens /\
    findByPath data tokens = Some (Found (Doc (value n)) (id n)) /\
    (searchable_doc data -> Forall searchable tokens).
Proof.
  intros Hwf Hn. unfold findByPath.
  assert (forall v, wf_json v -> n ∈ nodes_of (subtree "$" rootKey v) ->
            exists tokens,
              id n = canonical_from "$" tokens /\
              findByPath_loop (Doc v) "$" tokens = Some (Found (Doc (value n)) (id n)) /\
              (searchable_doc v -> Forall searchable tokens)) as Hplain.
  { intros v Hv Hm. destruct (subtree_tokens _ _ _ _ Hv Hm) as (ts & Hid & Hfind & Hs).
    exists ts. by rewrite Hfind, Hid. }
  unfold root_cell in Hn. cbn [c_type] in Hn.
  destruct data as [ | | | | items | props ]; try (by apply Hplain).
  cbn [detectType] in Hn.
  destruct props as [ | [k v] [ | kv props ] ]; try (by apply Hplain).
  cbn [keys fmap list_fmap fst] in Hn. unfold tree_of_cell in Hn. cbn [c_id c_key c_value] in Hn.
  unfold prop in Hn. cbn [own] in Hn. rewrite String.eqb_refl in Hn. cbn [default] in Hn.
  apply wf_json_obj in Hwf as [Hnd Hwf]. apply Forall_cons in Hwf as [Hv _].
  destruct (subtree_tokens _ _ _ _ Hv Hn) as (ts & Hid & Hfind & Hs).
  exists (TKey k :: ts). split; [ | split ].
  - by rewrite canonical_from_cons.
  - cbn [findByPath_loop is_null typeof_object negb orb has_property get_property].
    assert (mem k (keys [(k, v)]) = true) as -> by (apply mem_elem_of; by left).
    cbn [orb negb own]. rewrite String.eqb_refl. by rewrite Hfind, Hid.
  - intros Hall%searchable_doc_obj. apply Forall_cons in Hall as [[Hk Hx] _].
    constructor; [ exact Hk | by apply Hs ].
Qed.

(** X9. Every node of the tree of a well-formed document is reached by
    [findByPath]: there are tokens whose canonical path is the node's id and
    on which [findByPath] returns the node's value under that id. This holds
    for a collapsed root too, whose id [$.k] is the path of its value. *)
Theorem findByPath_reaches_every_node (data : json) (rootKey : string) (n : tree unit) :
  wf_json data ->
  n ∈ nodes_of (buildTree data rootKey) ->
  exists tokens,
    id n = canonical_from "$" tokens /\
    findByPath data tokens = Some (Found (Doc (value n)) (id n)).
Proof.
  intros Hwf Hn. rewrite (buildTree_subtree _ _ Hwf) in Hn.
  destruct (root_cell_tokens _ _ _ Hwf Hn) as (ts & Hid & Hfind & _). by exists ts.
Qed.

Lemma findByPath_reaches_every_node_witness :
  exists tokens,
    "$.y" = canonical_from "$" tokens /\
    findByPath doc_flat tokens = Some (Found (Doc (JNum 2)) "$.y").
Proof.
  apply (findByPath_reaches_every_node doc_flat "root"
           (Node "$.y" "y" KPrimitive (JNum 2) tt []) wf_doc_flat).
  vm_compute. repeat constructor.
Defined.

(** ** Reading a written index back *)

Lemma round_half_even_1 x : JS.round_half_even x 1 = x.
Proof. unfold JS.round_half_even. by rewrite Z.div_1_r, Z.mod_1_r. Qed.

Lemma to_double_exact n :
  0 < n < 2 ^ 53 ->
  JS.to_double n 1 = Some (n * 2 ^ (52 - Z.log2 n), Z.log2 n - 52).
Proof.
  intros Hn. unfold JS.to_double. rewrite Z.log2_1, Z.sub_0_r.
  pose proof (Z.log2_nonneg n) as Hnonneg.
  assert (Z.log2 n < 53) as Hlt by (apply Z.log2_lt_pow2; lia).
  destruct (Z.log2_spec n) as [Hlow _]; [ lia | ].
  replace (0 <=? Z.log2 n) with true by lia.
  replace (n <? 1 * 2 ^ Z.log2 n) with false by lia.
  replace (Z.max (Z.log2 n) (-1022) - 52) with (Z.log2 n - 52) by lia.
  destruct (0 <=? Z.log2 n - 52) eqn:Hp.
  - assert (Z.log2 n = 52) as -> by lia. cbn [andb].
    change (52 - 52) with 0. rewrite Z.pow_0_r, !Z.mul_1_r, round_half_even_1.
    assert (2 ^ 53 <= 2 ^ 1024) by (apply Z.pow_le_mono_r; lia).
    replace (2 ^ 1024 <=? n) with false by lia. done.
  - cbn [andb]. rewrite round_half_even_1.
    by replace (- (Z.log2 n - 52)) with (52 - Z.log2 n) by lia.
Qed.

Lemma decimal_integer_exact n : 0 <= n < 2 ^ 53 -> JS.decimal_integer n 0 = Some n.
Proof.
  intros Hn. unfold JS.decimal_integer. destruct (n =? 0) eqn:E; [ f_equal; lia | ].
  change (Z.max 0 0) with 0. change (Z.max (- 0) 0) with 0.
  rewrite Z.pow_0_r, Z.mul_1_r, to_double_exact by lia.
  pose proof (Z.log2_nonneg n) as Hnonneg.
  assert (Z.log2 n < 53) as Hlt by (apply Z.log2_lt_pow2; lia).
  destruct (0 <=? Z.log2 n - 52) eqn:Hp.
  - assert (Z.log2 n = 52) as -> by lia. change (52 - 52) with 0.
    by rewrite !Z.pow_0_r, !Z.mul_1_r.
  - replace (- (Z.log2 n - 52)) with (52 - Z.log2 n) by lia.
    assert (2 ^ (52 - Z.log2 n) <> 0) as Hne by (apply Z.pow_nonzero; lia).
    by rewrite Z.mod_mul, Z.eqb_refl, Z.div_mul.
Qed.

(** Reversal and trimming. *)
Lemma rev_app_append s1 : forall s2 s3,
  String.rev_app s1 (s2 +:+ s3) = String.rev_app s1 s2 +:+ s3.
Proof.
  induction s1 as [ | a s1 IH ]; intros s2 s3; [ done | ].
  cbn [String.rev_app]. by rewrite <- append_cons, IH.
Qed.

Lemma rev_cons c s : String.rev (String c s) = String.rev s +:+ String c "".
Proof.
  unfold String.rev. cbn [String.rev_app].
  by rewrite <- (append_nil_l (String c "")), rev_app_append, append_nil_l.
Qed.

Lemma rev_append s1 : forall s2,
  String.rev (s1 +:+ s2) = String.rev s2 +:+ String.rev s1.
Proof.
  induction s1 as [ | a s1 IH ]; intros s2.
  - by rewrite append_nil_l, append_nil_r.
  - by rewrite append_cons, !rev_cons, IH, append_assoc.
Qed.

Lemma rev_involutive s : String.rev (String.rev s) = s.
Proof.
  induction s as [ | a s IH ]; [ done | ].
  by rewrite rev_cons, rev_append, IH.
Qed.

Lemma trimStart_fix s :
  match s with String c _ => JS.is_white c = false | EmptyString => True end ->
  JS.trimStart s = s.
Proof. destruct s as [ | c s ]; [ done | ]. cbn [JS.trimStart]. by intros ->. Qed.

Lemma trim_fix s :
  match s with String c _ => JS.is_white c = false | EmptyString => True end ->
  ends_white s = false ->
  JS.trim s = s.
Proof.
  intros Hhead Hlast. unfold JS.trim. rewrite (trimStart_fix s Hhead).
  rewrite trimStart_fix; [ apply rev_involutive | ].
  unfold ends_white in Hlast. by destruct (String.rev s).
Qed.

Lemma ends_white_append s1 c s2 :
  ends_white (s1 +:+ String c s2) = ends_white (String c s2).
Proof.
  unfold ends_white. rewrite rev_append, rev_cons.
  destruct (String.rev s2) as [ | a r ]; by rewrite ?append_nil_l, !append_cons.
Qed.

(** Digit characters. *)
Lemma is_nat_char c k :
  Ascii.is_nat c = Some k ->
  JS.digit 10 c = Some (Z.of_nat k) /\ JS.is_white c = false /\
  Ascii.eqb c "]" = false /\
  (Ascii.eqb c "x" || Ascii.eqb c "X")%char = false /\
  (Ascii.eqb c "o" || Ascii.eqb c "O")%char = false /\
  (Ascii.eqb c "b" || Ascii.eqb c "B")%char = false /\
  forall s, JS.unsign (String c s) = (false, String c s).
Proof.
  destruct c as [[] [] [] [] [] [] [] []]; try discriminate; intros [= <-];
    repeat split.
Qed.

Lemma digit_pretty_N_char r :
  (r < 10)%N -> JS.digit 10 (pretty_N_char r) = Some (Z.of_N r).
Proof.
  intros Hr.
  assert (r = 0 \/ r = 1 \/ r = 2 \/ r = 3 \/ r = 4 \/ r = 5 \/ r = 6 \/ r = 7 \/
          r = 8 \/ r = 9)%N as H by lia.
  repeat (destruct H as [ -> | H ]; [ reflexivity | ]). by subst.
Qed.

Lemma digits_append b s1 : forall acc s2,
  JS.digits b acc (s1 +:+ s2) = JS.digits b acc s1 ≫= fun a => JS.digits b a s2.
Proof.
  induction s1 as [ | c s1 IH ]; intros acc s2; [ done | ].
  rewrite append_cons. cbn [JS.digits]. destruct (JS.digit b c); [ apply IH | done ].
Qed.

Lemma pretty_N_go_value x : forall s,
  exists d, pretty_N_go x s = d +:+ s /\ is_digits d = true /\
            JS.digits 10 0 d = Some (Z.of_N x) /\ (x <> 0%N -> d <> "").
Proof.
  induction (N.lt_wf_0 x) as [x _ IH]. intros s.
  destruct (decide (x = 0)%N) as [ -> | Hne ].
  - exists "". by rewrite pretty_N_go_0.
  - rewrite pretty_N_go_step by lia.
    destruct (IH (x `div` 10)%N ltac:(apply N.div_lt; lia)
                 (String (pretty_N_char (x `mod` 10)) s)) as (d & -> & Hd & Hv & _).
    exists (d +:+ String (pretty_N_char (x `mod` 10)) ""). repeat split.
    + by rewrite append_assoc.
    + apply is_digits_app; [ done | apply pretty_N_char_digit ].
    + rewrite digits_append, Hv. cbn [mbind option_bind JS.digits].
      rewrite digit_pretty_N_char by (apply N.mod_lt; lia). f_equal.
      pose proof (N.div_mod x 10 ltac:(lia)). lia.
    + intros _. by destruct d.
Qed.

Lemma pretty_Z_value n :
  0 <= n ->
  exists c d, pretty n = String c d /\ is_digits (String c d) = true /\
              JS.digits 10 0 (String c d) = Some n.
Proof.
  destruct n as [ | p | p ]; [ | | lia ]; intros _.
  - by exists "0"%char, "".
  - unfold pretty, pretty_Z, pretty, pretty_positive, pretty, pretty_N.
    case_decide; [ done | ].
    destruct (pretty_N_go_value (N.pos p) "") as (d & -> & Hd & Hv & Hne).
    rewrite append_nil_r. destruct d as [ | c d ]; [ by destruct Hne | ].
    by exists c, d.
Qed.

Lemma is_digits_head c d :
  is_digits (String c d) = true ->
  (exists k, Ascii.is_nat c = Some k) /\ is_digits d = true.
Proof. cbn [is_digits]. destruct (Ascii.is_nat c) as [ k | ]; [ eauto | done ]. Qed.

Lemma is_digits_rev d : is_digits d = true -> is_digits (String.rev d) = true.
Proof.
  induction d as [ | c d IH ]; [ done | ]. intros Hd. rewrite rev_cons.
  apply is_digits_head in Hd as [[k Hk] Hd].
  apply is_digits_app; [ by apply IH | ]. cbn [is_digits]. by rewrite Hk.
Qed.

Lemma is_digits_not_white d :
  is_digits d = true ->
  match d with String c _ => JS.is_white c = false | EmptyString => True end.
Proof.
  destruct d as [ | c d ]; [ done | ]. intros [[k Hk] _]%is_digits_head.
  by apply is_nat_char in Hk as (_ & Hw & _).
Qed.

Lemma trim_digits d : is_digits d = true -> JS.trim d = d.
Proof.
  intros Hd. apply trim_fix; [ by apply is_digits_not_white | ].
  unfold ends_white. pose proof (is_digits_not_white _ (is_digits_rev _ Hd)) as H.
  by destruct (String.rev d).
Qed.

Lemma span_digits_all d : is_digits d = true -> JS.span_digits d = (d, "").
Proof.
  induction d as [ | c d IH ]; [ done | ]. intros [[k Hk] Hd]%is_digits_head.
  cbn [JS.span_digits]. apply is_nat_char in Hk as (-> & _). by rewrite IH.
Qed.

Lemma radix_literal_digits d : is_digits d = true -> JS.radix_literal d = None.
Proof.
  destruct d as [ | a [ | c d ] ]; [ done | by destruct a as [[] [] [] [] [] [] [] []] | ].
  intros [_ [[k Hk] _]%is_digits_head]%is_digits_head.
  apply is_nat_char in Hk as (_ & _ & _ & Hx & Ho & Hb & _).
  destruct a as [[] [] [] [] [] [] [] []]; try done.
  cbn [JS.radix_literal]. by rewrite Hx, Ho, Hb.
Qed.

(** A string of decimal digits converts to the integer it spells, as long
    as that integer is one a number holds exactly. *)
Lemma Number_integer_digits c d n :
  is_digits (String c d) = true ->
  JS.digits 10 0 (String c d) = Some n ->
  0 <= n < 2 ^ 53 ->
  JS.Number_integer (String c d) = Some n.
Proof.
  intros Hd Hv Hn. unfold JS.Number_integer.
  rewrite (trim_digits _ Hd), (radix_literal_digits _ Hd).
  destruct (is_digits_head _ _ Hd) as [[k Hk] _].
  apply is_nat_char in Hk as (_ & _ & _ & _ & _ & _ & ->).
  unfold JS.unsigned_decimal. rewrite (span_digits_all _ Hd).
  rewrite append_nil_r, Hv. cbn [JS.exponent_part String.length Z.of_nat].
  change (0 - 0) with 0. by rewrite decimal_integer_exact.
Qed.

Lemma Number_integer_pretty n :
  0 <= n <= MAX_SAFE_INTEGER -> JS.Number_integer (pretty n) = Some n.
Proof.
  unfold MAX_SAFE_INTEGER. intros Hn.
  destruct (pretty_Z_value n) as (c & d & -> & Hd & Hv); [ lia | ].
  apply Number_integer_digits; [ done | done | lia ].
Qed.

(** ** Reading a written path back *)

(** Positions behind a prefix. *)
Lemma get_append pre : forall j r,
  String.get (String.length pre + j) (pre +:+ r) = String.get j r.
Proof. induction pre as [ | a pre IH ]; intros j r; [ done | ]. apply IH. Qed.

Lemma index_append p pre : forall j r,
  String.index (String.length pre + j) p (pre +:+ r)
  = (fun m => String.length pre + m)%nat <$> String.index j p r.
Proof.
  induction pre as [ | a pre IH ]; intros j r.
  - rewrite append_nil_l. cbn [String.length Nat.add].
    by destruct (String.index j p r).
  - rewrite append_cons. cbn [String.length Nat.add String.index].
    rewrite IH. by destruct (String.index j p r).
Qed.

Lemma substring_append pre : forall j m r,
  String.substring (String.length pre + j) m (pre +:+ r) = String.substring j m r.
Proof. induction pre as [ | a pre IH ]; intros j m r; [ done | ]. apply IH. Qed.

Lemma substring_prefix d : forall r,
  String.substring 0 (String.length d) (d +:+ r) = d.
Proof.
  induction d as [ | a d IH ]; intros r; [ by destruct r | ].
  rewrite append_cons. cbn [String.length String.substring]. by rewrite IH.
Qed.

Lemma substring_full r : String.substring 0 (String.length r) r = r.
Proof. rewrite <- (append_nil_r r) at 2. apply substring_prefix. Qed.

Lemma prefix_single a c r :
  String.prefix (String a "") (String c r) = Ascii.eqb a c.
Proof.
  cbn [String.prefix]. destruct (ascii_dec a c) as [ -> | Hne ].
  - rewrite Ascii.eqb_refl. by destruct r.
  - symmetry. by apply Ascii.eqb_neq.
Qed.

Lemma index_digits d : forall r,
  is_digits d = true ->
  String.index 0 "]" (d +:+ String "]" r) = Some (String.length d).
Proof.
  induction d as [ | c d IH ]; intros r Hd.
  - rewrite append_nil_l. cbn [String.index]. by rewrite prefix_single.
  - apply is_digits_head in Hd as [[k Hk] Hd].
    rewrite append_cons. cbn [String.index]. rewrite prefix_single.
    apply is_nat_char in Hk as (_ & _ & Hc & _). rewrite Ascii.eqb_sym, Hc.
    by rewrite IH.
Qed.

(** One iteration of the loop of [parsePath], for any sufficient fuel. *)
Lemma parsePath_loop_end s i tokens buf f :
  String.get i s = None -> parsePath_loop f s i tokens buf = flush tokens buf.
Proof. intros H. destruct f; cbn [parsePath_loop]; by rewrite ?H. Qed.

Lemma parsePath_loop_dot s i tokens buf f f' :
  String.get i s = Some "."%char ->
  (String.length s - i < f)%nat -> (String.length s - S i < f')%nat ->
  parsePath_loop f s i tokens buf = parsePath_loop f' s (S i) (flush tokens buf) "".
Proof.
  intros H Hf Hf'. destruct f as [ | f ]; [ lia | ]. cbn [parsePath_loop]. rewrite H.
  cbn [Ascii.eqb Bool.eqb]. apply get_lt in H. apply parsePath_loop_fuel; lia.
Qed.

Lemma parsePath_loop_char s i tokens buf f f' ch :
  String.get i s = Some ch -> ch <> "."%char -> ch <> "["%char ->
  (String.length s - i < f)%nat -> (String.length s - S i < f')%nat ->
  parsePath_loop f s i tokens buf
  = parsePath_loop f' s (S i) tokens (buf +:+ String ch "").
Proof.
  intros H Hdot Hbr Hf Hf'. destruct f as [ | f ]; [ lia | ]. cbn [parsePath_loop].
  rewrite H. apply Ascii.eqb_neq in Hdot, Hbr. rewrite Hdot, Hbr.
  apply get_lt in H. apply parsePath_loop_fuel; lia.
Qed.

Lemma parsePath_loop_bracket s i j idx tokens buf f f' :
  String.get i s = Some "["%char ->
  JS.indexOf s "]" i = Some j ->
  JS.Number_integer (JS.slice s (i + 1) j) = Some idx ->
  (String.length s - i < f)%nat -> (String.length s - S j < f')%nat ->
  parsePath_loop f s i tokens buf
  = parsePath_loop f' s (S j) (flush tokens buf ++ [TIdx idx]) "".
Proof.
  intros H Hj Hidx Hf Hf'. destruct f as [ | f ]; [ lia | ]. cbn [parsePath_loop].
  rewrite H. cbn [Ascii.eqb Bool.eqb]. rewrite Hj, Hidx.
  apply get_lt in H. apply index_ge in Hj. apply parsePath_loop_fuel; lia.
Qed.

Lemma get_append_head pre c r :
  String.get (String.length pre) (pre +:+ String c r) = Some c.
Proof. rewrite <- (Nat.add_0_r (String.length pre)). by rewrite get_append. Qed.

Lemma get_append_end pre : String.get (String.length pre) pre = None.
Proof. induction pre as [ | a pre IH ]; [ done | apply IH ]. Qed.

Lemma append_snoc pre c r : pre +:+ String c r = (pre +:+ String c "") +:+ r.
Proof. by rewrite append_assoc, append_cons, append_nil_l. Qed.

Lemma length_snoc pre c :
  String.length (pre +:+ String c "") = S (String.length pre).
Proof. rewrite length_append. cbn [String.length]. lia. Qed.

Ltac solve_length :=
  repeat first [ rewrite length_append in * | progress cbn [String.length] in * ];
  lia.

(** The loop copies the characters of a plain key into [buf]. *)
Lemma parsePath_loop_key k : forall pre r tokens buf f f',
  plain k = true ->
  (String.length (k +:+ r) < f)%nat -> (String.length r < f')%nat ->
  parsePath_loop f (pre +:+ k +:+ r) (String.length pre) tokens buf
  = parsePath_loop f' ((pre +:+ k) +:+ r) (String.length (pre +:+ k)) tokens
                   (buf +:+ k).
Proof.
  induction k as [ | c k IH ]; intros pre r tokens buf f f' Hk Hf Hf'.
  - rewrite append_nil_l, !append_nil_r. rewrite append_nil_l in Hf.
    apply parsePath_loop_fuel; solve_length.
  - apply plain_head in Hk as (Hdot & Hbr & Hk).
    rewrite append_cons in Hf. cbn [String.length] in Hf.
    rewrite (parsePath_loop_char _ _ _ _ f (S (String.length (k +:+ r))) c);
      [ | by rewrite append_cons, get_append_head | done | done
        | solve_length | solve_length ].
    rewrite append_cons, (append_snoc pre c (k +:+ r)), <- (length_snoc pre c).
    rewrite (IH (pre +:+ String c "") r tokens (buf +:+ String c "") _ f' Hk);
      [ | lia | done ].
    by rewrite <- !(append_snoc _ c k).
Qed.

Lemma flush_empty tokens : flush tokens "" = tokens.
Proof. done. Qed.

Lemma flush_key tokens k : truthy k = true -> flush tokens k = tokens ++ [TKey k].
Proof. unfold flush. by intros ->. Qed.

Lemma searchable_key_spec k :
  searchable_key k = true ->
  truthy k = true /\ plain k = true /\ ends_white k = false.
Proof.
  unfold searchable_key. intros [[H1 H2]%andb_prop H3%negb_true_iff]%andb_prop. done.
Qed.

(** From the start of a segment on, the loop reads the remaining tokens. *)
Lemma parsePath_loop_segments ts : forall pre tokens buf f,
  Forall searchable ts ->
  (String.length (segments ts) < f)%nat ->
  parsePath_loop f (pre +:+ segments ts) (String.length pre) tokens buf
  = flush tokens buf ++ ts.
Proof.
  induction ts as [ | [ k | n ] ts IH ]; intros pre tokens buf f Hs Hf.
  - cbn [segments foldr]. rewrite append_nil_r, app_nil_r.
    apply parsePath_loop_end, get_append_end.
  - apply Forall_cons in Hs as [(Hne & Hk & _)%searchable_key_spec Hs].
    cbn [segments foldr segment] in *. fold (segments ts) in *.
    rewrite !append_assoc, !append_cons, !append_nil_l in *. cbn [String.length] in Hf.
    rewrite (parsePath_loop_dot _ _ _ _ f (S (String.length (k +:+ segments ts))));
      [ | apply get_append_head
        | solve_length | solve_length ].
    rewrite (append_snoc pre "."), <- (length_snoc pre ".").
    rewrite (parsePath_loop_key k _ _ _ _ _ (S (String.length (segments ts))) Hk);
      [ | lia | lia ].
    rewrite IH; [ | done | lia ].
    by rewrite append_nil_l, (flush_key _ _ Hne), <- app_assoc.
  - apply Forall_cons in Hs as [Hn Hs]. cbn [searchable] in Hn.
    pose proof (Number_integer_pretty n Hn) as Hnum.
    destruct (pretty_Z_value n) as (c & d & Hd & Hdig & _); [ lia | ].
    cbn [segments foldr segment] in *. fold (segments ts) in *.
    rewrite Hd in *. set (ds := String c d) in *.
    rewrite !append_assoc, !append_cons, !append_nil_l in *. cbn [String.length] in Hf.
    rewrite length_append in Hf. cbn [String.length] in Hf.
    rewrite (parsePath_loop_bracket _ _ (String.length pre + S (String.length ds)) n
               _ _ f (S (String.length (segments ts)))).
    + replace (S (String.length pre + S (String.length ds)))
        with (String.length (pre +:+ String "[" (ds +:+ String "]" "")))
        by solve_length.
      replace (pre +:+ String "[" (ds +:+ String "]" (segments ts)))
        with ((pre +:+ String "[" (ds +:+ String "]" "")) +:+ segments ts)
        by (by rewrite !append_assoc, !append_cons, !append_assoc, !append_cons,
                       !append_nil_l).
      rewrite IH; [ | done | lia ]. by rewrite flush_empty, <- app_assoc.
    + apply get_append_head.
    + unfold JS.indexOf. rewrite <- (Nat.add_0_r (String.length pre)) at 1.
      rewrite index_append. cbn [String.index]. rewrite prefix_single.
      cbn [Ascii.eqb Bool.eqb]. by rewrite (index_digits _ _ Hdig).
    + unfold JS.slice.
      replace (String.length pre + S (String.length ds) - (String.length pre + 1))%nat
        with (String.length ds) by lia.
      rewrite substring_append. cbn [String.substring Nat.add].
      by rewrite substring_prefix.
    + solve_length.
    + solve_length.
Qed.

Lemma canonical_from_segments ts : forall path,
  canonical_from path ts = path +:+ segments ts.
Proof.
  induction ts as [ | t ts IH ]; intros path.
  - cbn. by rewrite append_nil_r.
  - rewrite canonical_from_cons, IH. cbn [segments foldr]. by rewrite append_assoc.
Qed.

Lemma ends_white_canonical ts : forall c p,
  Forall searchable ts ->
  ends_white (String c p) = false ->
  ends_white (canonical_from (String c p) ts) = false.
Proof.
  induction ts as [ | t ts IH ]; intros c p Hs Hp; [ done | ].
  apply Forall_cons in Hs as [Ht Hs].
  rewrite canonical_from_cons, append_cons. apply IH; [ done | ].
  rewrite <- append_cons. destruct t as [ k | n ]; cbn [segment searchable] in *.
  - apply searchable_key_spec in Ht as (Hne & _ & Hk).
    destruct k as [ | a k ]; [ done | ].
    by rewrite <- append_assoc, ends_white_append.
  - by rewrite <- !append_assoc, ends_white_append.
Qed.

Lemma startsWith_head c s a :
  JS.startsWith (String c s) (String a "") = Ascii.eqb a c.
Proof. apply prefix_single. Qed.

Lemma slice_from_tail c s : JS.slice_from (String c s) 1 = s.
Proof.
  unfold JS.slice_from. cbn [String.length Nat.sub String.substring].
  by rewrite Nat.sub_0_r, substring_full.
Qed.

Lemma parsePath_canonical_from (tokens : list token) :
  Forall searchable tokens ->
  parsePath (canonical_from "$" tokens) = tokens.
Proof.
  intros Hs. unfold parsePath.
  rewrite trim_fix;
    [ | by rewrite canonical_from_segments, append_cons
      | by apply ends_white_canonical ].
  rewrite canonical_from_segments, append_cons, append_nil_l.
  cbn [truthy negb]. rewrite !startsWith_head, !slice_from_tail.
  cbn [Ascii.eqb Bool.eqb].
  destruct tokens as [ | [ k | n ] ts ].
  - done.
  - apply Forall_cons in Hs as [(Hne & Hk & _)%searchable_key_spec Hs].
    cbn [segments foldr segment]. fold (segments ts).
    rewrite !append_assoc, !append_cons, !append_nil_l.
    rewrite !startsWith_head, !slice_from_tail. cbn [Ascii.eqb Bool.eqb].
    rewrite <- (append_nil_l (k +:+ segments ts)) at 2.
    change 0%nat with (String.length "").
    rewrite (parsePath_loop_key k "" _ _ _ _ (S (String.length (segments ts))) Hk);
      [ | lia | lia ].
    rewrite parsePath_loop_segments; [ | done | lia ].
    by rewrite !append_nil_l, (flush_key _ _ Hne).
  - set (R := segments (TIdx n :: ts)).
    assert (exists r, R = String "[" r) as [r HR].
    { unfold R. cbn [segments foldr segment].
      rewrite !append_assoc, !append_cons. by eexists. }
    rewrite HR, !startsWith_head. cbn [Ascii.eqb Bool.eqb]. rewrite <- HR.
    rewrite <- (append_nil_l R) at 2. change 0%nat with (String.length "").
    unfold R. rewrite parsePath_loop_segments; [ done | done | lia ].
Qed.

(** X10. [parsePath] reads a canonical path back: the path written for a
    token sequence, [$] followed by [.key] and [[index]] segments, is
    tokenized into that sequence again, provided every key is not empty,
    holds no ["."] or ["["] and does not end in white space, and every
    index is a non-negative integer that a number holds exactly. *)
Theorem parsePath_canonical (tokens : list token) :
  Forall searchable tokens ->
  parsePath (canonical_from "$" tokens) = tokens.
Proof. apply parsePath_canonical_from. Qed.

Lemma parsePath_canonical_witness :
  parsePath "$.user.tags[1]" = [TKey "user"; TKey "tags"; TIdx 1].
Proof.
  apply (parsePath_canonical [TKey "user"; TKey "tags"; TIdx 1]).
  repeat constructor; vm_compute; by try split.
Defined.

(** ** Copying a path and searching for it *)

Lemma onSearch_resolved st ts r :
  falsy (raw st) = false -> parsePath (query st) = ts -> ts <> [] ->
  findByPath (raw st) ts = Some r ->
  onSearch st
  = set_graph (reanchor (buildGraph (raw st) (Some (f_path r))))
      (set_highlightId (Some (f_path r)) (set_status "Match found" st)).
Proof.
  intros Hraw Htok Hne Hres. unfold onSearch. rewrite Hraw, Htok.
  destruct (length ts =? 0)%nat eqn:E; [ by apply length_eqb_nil in E | ].
  cbn [andb]. by rewrite Hres.
Qed.

Lemma graph_ids data h :
  n_id <$> nodes (buildGraph data h) ≡ₚ ids (buildTree data "root").
Proof.
  unfold buildGraph. rewrite mapToFlow_spec. cbn [nodes].
  rewrite <- list_fmap_compose, visit_order_Permutation.
  unfold ids. by rewrite <- (ids_erase (layoutTree _ _ _ _ _)), erase_pipeline.
Qed.

Lemma searchable_doc_plain v : searchable_doc v -> plain_keys v.
Proof.
  induction v as [v IH] using json_members_ind.
  destruct v as [ | | | | items | props ]; try done; cbn [direct_members] in IH.
  - intros [_ Hall]%searchable_doc_arr. apply plain_keys_arr.
    apply Forall_forall. intros x Hx.
    eapply Forall_forall in IH; [ | exact Hx ]. apply IH.
    by eapply Forall_forall in Hall.
  - intros Hall%searchable_doc_obj. apply plain_keys_obj.
    apply Forall_forall. intros kv Hkv.
    eapply Forall_forall in Hall; [ | exact Hkv ]. destruct Hall as [Hk Hv]. split.
    + by apply searchable_key_spec in Hk as (_ & Hk & _).
    + eapply Forall_forall in IH; [ by apply IH | ].
      apply list_elem_of_fmap. by exists kv.
Qed.

Lemma NoDup_graph_ids data h :
  wf_json data -> plain_keys data -> NoDup (n_id <$> nodes (buildGraph data h)).
Proof.
  intros Hwf Hpl. rewrite graph_ids, buildTree_subtree by done.
  apply NoDup_ids_subtree.
  - by destruct (root_cell_ok data "root" Hwf) as (_ & _ & Hwf').
  - by apply root_cell_plain.
Qed.

Lemma NoDup_fmap_eq {A B} (f : A -> B) (l : list A) x y :
  NoDup (f <$> l) -> x ∈ l -> y ∈ l -> f x = f y -> x = y.
Proof.
  induction l as [ | a l IH ]; [ by intros _ ?%elem_of_nil | ].
  rewrite fmap_cons, NoDup_cons.
  intros [Ha Hnd] [ -> | Hx ]%elem_of_cons [ -> | Hy ]%elem_of_cons Heq; [ done | | | by apply IH ].
  - exfalso. apply Ha. rewrite Heq. apply list_elem_of_fmap. by exists y.
  - exfalso. apply Ha. rewrite <- Heq. apply list_elem_of_fmap. by exists x.
Qed.

Lemma primitive_tree_ids data rootKey n :
  wf_json data -> n ∈ nodes_of (buildTree data rootKey) -> id n <> "$" ->
  falsy data = false.
Proof.
  intros Hwf Hn Hne. rewrite buildTree_subtree in Hn by done.
  destruct data as [ | b | z | s | items | props ]; try done;
    apply list_elem_of_singleton in Hn; by subst n.
Qed.

Lemma unstyled_graph data h h' :
  unstyled <$> nodes (reanchor (buildGraph data h))
  = unstyled <$> nodes (reanchor (buildGraph data h')).
Proof. unfold buildGraph. rewrite !mapToFlow_spec. by apply reanchor_unstyled. Qed.

Lemma edges_graph data h h' :
  edges (reanchor (buildGraph data h)) = edges (reanchor (buildGraph data h')).
Proof. unfold buildGraph. by rewrite !reanchor_edges, !mapToFlow_spec. Qed.

Lemma highlighted_graph data h m :
  m ∈ nodes (reanchor (buildGraph data h)) -> highlighted m <-> h = Some (n_id m).
Proof.
  rewrite reanchor_nodes. intros (m0 & -> & Hm0)%list_elem_of_fmap.
  unfold buildGraph in Hm0. rewrite mapToFlow_spec in Hm0. cbn [nodes] in Hm0.
  apply list_elem_of_fmap in Hm0 as (t & -> & _).
  apply (flow_node_highlighted h t).
Qed.

(** X11. A drawn node can be found again by its id. After [generate] drew
    a well-formed document with searchable keys, clicking any node but a
    root with the id [$], pasting the copied id into the search box and
    searching reports a match, sets the highlight id to that id, and redraws
    the same graph with the clicked node, and no other, in the highlight
    colour. *)
Theorem search_finds_copied_path (data : json) (st0 : app) (m : flow_node) :
  wf_json data -> searchable_doc data ->
  m ∈ nodes (current (generate (Some data) st0)) ->
  n_id m <> "$" ->
  status (copy_and_search m (generate (Some data) st0)) = "Match found" /\
  highlightId (copy_and_search m (generate (Some data) st0)) = Some (n_id m) /\
  Forall (fun m' => highlighted m' <-> unstyled m' = unstyled m)
         (nodes (current (copy_and_search m (generate (Some data) st0)))) /\
  unstyled <$> nodes (current (copy_and_search m (generate (Some data) st0)))
  = unstyled <$> nodes (current (generate (Some data) st0)) /\
  edges (current (copy_and_search m (generate (Some data) st0)))
  = edges (current (generate (Some data) st0)).
Proof.
  intros Hwf Hs Hm Hne. cbn [generate current] in *.
  assert (n_id m ∈ ids (buildTree data "root")) as (n & Hid & Hn)%list_elem_of_fmap.
  { rewrite <- (graph_ids data None), <- reanchor_ids. apply list_elem_of_fmap. by exists m. }
  pose proof Hn as Hn'. rewrite (buildTree_subtree _ _ Hwf) in Hn'.
  destruct (root_cell_tokens _ _ _ Hwf Hn') as (ts & Hcan & Hfind & Hts).
  specialize (Hts Hs).
  assert (ts <> []) as Hne' by (intros ->; apply Hne; by rewrite Hid, Hcan).
  assert (falsy data = false) as Hraw
    by (eapply primitive_tree_ids; [ done | exact Hn | congruence ]).
  unfold copy_and_search.
  rewrite (onSearch_resolved _ ts (Found (Doc (value n)) (id n)));
    [ | done | cbn [query set_query]; by rewrite Hid, Hcan, parsePath_canonical_from
      | done | done ].
  cbn [set_graph set_highlightId set_status status highlightId current f_path].
  rewrite <- Hid. cbn [raw set_query onNodeClick set_status].
  split; [ done | split; [ done | split; [ | split ] ] ].
  - apply Forall_forall. intros m' Hm'.
    rewrite (highlighted_graph _ _ _ Hm'). split.
    + intros [= Heq].
      assert (unstyled m' ∈ unstyled <$> nodes (reanchor (buildGraph data None)))
        as (m'' & Hu & Hm'')%list_elem_of_fmap.
      { rewrite (unstyled_graph data None (Some (n_id m))).
        apply list_elem_of_fmap. by exists m'. }
      rewrite Hu. f_equal.
      eapply (NoDup_fmap_eq n_id); [ | exact Hm'' | exact Hm | ].
      * rewrite reanchor_ids. apply NoDup_graph_ids; [ done | by apply searchable_doc_plain ].
      * unfold unstyled in Hu. congruence.
    + unfold unstyled. congruence.
  - apply unstyled_graph.
  - apply edges_graph.
Qed.

Lemma search_finds_copied_path_witness :
  exists m,
    nodes (current (st_generated doc_flat)) !! 1%nat = Some m /\
    status (copy_and_search m (st_generated doc_flat)) = "Match found" /\
    highlightId (copy_and_search m (st_generated doc_flat)) = Some "$.y".
Proof.
  destruct (nodes (current (st_generated doc_flat)) !! 1%nat) as [ m | ] eqn:E;
    [ | by vm_compute in E ].
  assert (n_id m = "$.y") as Hid by (vm_compute in E; by injection E as <-).
  exists m. split; [ done | ].
  destruct (search_finds_copied_path doc_flat st_empty m wf_doc_flat) as (H1 & H2 & _).
  - simpl. repeat split; vm_compute; congruence.
  - by eapply list_elem_of_lookup_2.
  - rewrite Hid. discriminate.
  - rewrite Hid in H2. split; [ exact H1 | exact H2 ].
Defined.

(** ** No two nodes at one point *)

Lemma layout_depth w : forall x d m,
  m ∈ nodes_of (layoutTree w x d H_GAP V_GAP) ->
  d * V_GAP <= pos_y (position (ann m)).
Proof.
  induction w as [i k ty v a cs IH] using tree_ind. intros x d m Hm.
  apply nodes_of_inv in Hm as [ -> | (c' & Hc' & Hm) ].
  - rewrite ann_layoutTree. cbn [position pos_y]. lia.
  - rewrite children_layoutTree in Hc'. cbn [children] in Hc'.
    apply layout_each_elem in Hc' as (c & x' & Hc & ->).
    eapply Forall_forall in IH; [ | exact Hc ].
    specialize (IH _ _ _ Hm). unfold V_GAP in *. lia.
Qed.

Lemma layout_each_NoDup cs :
  Forall (fun c => forall x d,
            NoDup (position ∘ ann
                   <$> nodes_of (layoutTree (computeWidths c) x d H_GAP V_GAP))) cs ->
  forall cursor d,
    NoDup (position ∘ ann
           <$> concat (nodes_of
                       <$> layout_each (computeWidths <$> cs) cursor d H_GAP V_GAP)).
Proof.
  induction 1 as [ | c cs Hc _ IH ]; intros cursor d; [ constructor | ].
  rewrite fmap_cons. cbn [layout_each]. rewrite fmap_cons. cbn [concat].
  rewrite fmap_app. apply NoDup_app. split; [ apply Hc | split; [ | apply IH ] ].
  intros p (m1 & -> & Hm1)%list_elem_of_fmap (m2 & Heq & Hm2)%list_elem_of_fmap.
  apply elem_of_concat in Hm2 as (l & Hm2 & (c' & -> & Hc')%list_elem_of_fmap).
  pose proof (layoutTree_contained c _ _ _ Hm1) as H1.
  assert (Forall contained cs) as Hall
    by (apply Forall_forall; intros; apply layoutTree_contained).
  pose proof (layout_each_contained cs Hall _ _ _ _ Hc' Hm2) as H2.
  rewrite width_computeWidths in H2. unfold compose in Heq. rewrite Heq in H1. lia.
Qed.

Lemma layout_NoDup u : forall x d,
  NoDup (position ∘ ann <$> nodes_of (layoutTree (computeWidths u) x d H_GAP V_GAP)).
Proof.
  induction u as [i k ty v a cs IH] using tree_ind. intros x d.
  rewrite nodes_of_unfold, fmap_cons, children_layoutTree, children_computeWidths.
  cbn [children]. apply NoDup_cons. split; [ | by apply layout_each_NoDup ].
  intros (m & Heq & Hm)%list_elem_of_fmap.
  apply elem_of_concat in Hm as (l & Hm & (c' & -> & Hc')%list_elem_of_fmap).
  apply layout_each_elem in Hc' as (c & x' & _ & ->).
  apply layout_depth in Hm. unfold compose in Heq. rewrite <- Heq, ann_layoutTree in Hm.
  cbn [position pos_y] in Hm. unfold V_GAP in Hm. lia.
Qed.

(** X12. No two nodes are drawn at the same point: the positions that the
    pipeline gives to the nodes of a document are pairwise distinct, before
    and after re-anchoring. *)
Theorem no_two_nodes_at_one_point (data : json) (h : option string) :
  NoDup (n_position <$> nodes (buildGraph data h)) /\
  NoDup (n_position <$> nodes (reanchor (buildGraph data h))).
Proof.
  assert (NoDup (n_position <$> nodes (buildGraph data h))) as Hnd.
  { unfold buildGraph. rewrite mapToFlow_spec. cbn [nodes].
    rewrite <- list_fmap_compose, visit_order_Permutation. apply layout_NoDup. }
  split; [ exact Hnd | ].
  rewrite reanchor_nodes, <- list_fmap_compose.
  set (dx := 40 - _).
  rewrite (list_fmap_ext (n_position ∘ shifted dx)
             ((fun p => Point (pos_x p + dx) (pos_y p)) ∘ n_position)
             (nodes (buildGraph data h))) by done.
  rewrite list_fmap_compose. apply NoDup_fmap_2; [ | exact Hnd ].
  intros [x1 y1] [x2 y2] [= Hx Hy]. f_equal; [ lia | done ].
Qed.

(** ** What a search changes *)

(** X13. [onSearch] never changes the text, the error, the document, the
    query or the theme. It ends with one of three status messages; it
    redraws the graph only when it reports a match, and then from the
    document with the returned path as highlight id; in every other case the
    graph stays as it was. *)
Theorem onSearch_frame (st : app) :
  jsonText (onSearch st) = jsonText st /\ error (onSearch st) = error st /\
  raw (onSearch st) = raw st /\ query (onSearch st) = query st /\
  theme (onSearch st) = theme st /\
  ((status (onSearch st) = "Match found" /\
    exists p, highlightId (onSearch st) = Some p /\
              current (onSearch st) = reanchor (buildGraph (raw st) (Some p))) \/
   ((status (onSearch st) = "No match found" \/
     status (onSearch st) = "No tree. Paste JSON and Generate first.") /\
    current (onSearch st) = current st)).
Proof.
  unfold onSearch. destruct (falsy (raw st)); [ repeat split; right; by auto | ].
  destruct ((length (parsePath (query st)) =? 0)%nat && truthy (JS.trim (query st)));
    [ repeat split; right; by auto | ].
  destruct (if (length (parsePath (query st)) =? 0)%nat
            then Some (Found (Doc (raw st)) "$")
            else findByPath (raw st) (parsePath (query st))) as [ r | ];
    [ | repeat split; right; by auto ].
  repeat split. left. split; [ done | ]. by exists (f_path r).
Qed.

(** ** The root and the search box *)

Lemma parsePath_blank q : JS.trim q = "" -> parsePath q = [].
Proof.
  intros H. unfold parsePath. destruct (truthy q); [ | done ]. cbn [negb].
  by rewrite H.
Qed.

(** X14. With a document that counts as present, a blank query selects the
    root: the search reports a match under the id [$] and redraws with that
    highlight id. The id [$] itself, as copied from a root node by a click,
    is not found: the search reports no match and leaves graph and highlight
    id as they were. *)
Theorem root_is_selected_by_a_blank_query (st : app) (q : string) (m : flow_node) :
  falsy (raw st) = false ->
  (JS.trim q = "" ->
   status (onSearch (set_query q st)) = "Match found" /\
   highlightId (onSearch (set_query q st)) = Some "$" /\
   current (onSearch (set_query q st)) = reanchor (buildGraph (raw st) (Some "$"))) /\
  (n_id m = "$" ->
   copy_and_search m st = set_status "No match found" (set_query "$" (onNodeClick m st))).
Proof.
  intros Hraw. split.
  - intros Hq. unfold onSearch. cbn [raw query set_query]. rewrite Hraw.
    rewrite (parsePath_blank _ Hq), Hq. done.
  - intros Hid. unfold copy_and_search. rewrite Hid.
    apply onSearch_not_tokenized; [ exact Hraw | done | done ].
Qed.

Lemma root_is_selected_by_a_blank_query_witness :
  status (onSearch (set_query "  " (st_generated doc_flat))) = "Match found" /\
  highlightId (onSearch (set_query "  " (st_generated doc_flat))) = Some "$".
Proof.
  destruct (root_is_selected_by_a_blank_query (st_generated doc_flat) "  "
              (FlowNode "$" (Point 0 0) "" "" (Style 0 0 0 "" "" "" "") "" "")
              eq_refl) as [H _].
  destruct (H eq_refl) as (H1 & H2 & _). split; [ exact H1 | exact H2 ].
Defined.

(** ** Documents that count as absent *)

(** X15. A search needs a document that is not falsy. After [clearAll] and
    after a text that does not parse there is none, and every search is
    refused. The documents [null], [false], [0] and the empty string are
    drawn by [generate] as a single node with the id [$], yet every search
    on them is refused in the same way, the graph staying as drawn. *)
Theorem search_needs_a_truthy_document (st : app) (q : string) (data : json) :
  falsy data = true ->
  onSearch (set_query q (clearAll st))
  = set_status "No tree. Paste JSON and Generate first." (set_query q (clearAll st)) /\
  onSearch (set_query q (generate None st))
  = set_status "No tree. Paste JSON and Generate first."
      (set_query q (generate None st)) /\
  n_id <$> nodes (current (generate (Some data) st)) = ["$"] /\
  onSearch (set_query q (generate (Some data) st))
  = set_status "No tree. Paste JSON and Generate first."
      (set_query q (generate (Some data) st)).
Proof.
  intros Hf. split; [ done | split; [ done | ] ].
  split.
  - destruct data as [ | [] | [ | p | p ] | [ | c s ] | items | props ]; try done.
  - unfold onSearch. cbn [raw set_query generate]. by rewrite Hf.
Qed.

Lemma search_needs_a_truthy_document_witness :
  n_id <$> nodes (current (generate (Some (JNum 0)) st_empty)) = ["$"] /\
  status (onSearch (set_query "$" (generate (Some (JNum 0)) st_empty)))
  = "No tree. Paste JSON and Generate first.".
Proof.
  destruct (search_needs_a_truthy_document st_empty "$" (JNum 0) eq_refl)
    as (_ & _ & H1 & H2).
  split; [ exact H1 | by rewrite H2 ].
Defined.

(** ** The tokens of a query *)

Lemma plain_append b c :
  plain b = true -> c <> "."%char -> c <> "["%char ->
  plain (b +:+ String c "") = true.
Proof.
  intros Hb Hdot Hbr. induction b as [ | a b IH ].
  - rewrite append_nil_l. cbn [plain]. apply Ascii.eqb_neq in Hdot, Hbr.
    by rewrite Hdot, Hbr.
  - rewrite append_cons. apply plain_head in Hb as (Ha1 & Ha2 & Hb).
    cbn [plain]. apply Ascii.eqb_neq in Ha1, Ha2. rewrite Ha1, Ha2. by apply IH.
Qed.

Lemma parsePath_loop_keys f : forall s i tokens buf,
  Forall (fun t => match t with
                   | TKey k => k <> "" /\ plain k = true
                   | TIdx _ => True
                   end) tokens ->
  plain buf = true ->
  Forall (fun t => match t with
                   | TKey k => k <> "" /\ plain k = true
                   | TIdx _ => True
                   end) (parsePath_loop f s i tokens buf).
Proof.
  assert (forall tokens buf,
            Forall (fun t => match t with
                             | TKey k => k <> "" /\ plain k = true
                             | TIdx _ => True
                             end) tokens ->
            plain buf = true ->
            Forall (fun t => match t with
                             | TKey k => k <> "" /\ plain k = true
                             | TIdx _ => True
                             end) (flush tokens buf)) as Hflush.
  { intros tokens buf Ht Hb. unfold flush. destruct buf as [ | c b ]; [ done | ].
    cbn [truthy]. apply Forall_app. split; [ done | ]. by repeat constructor. }
  induction f as [ | f IH ]; intros s i tokens buf Ht Hb; cbn [parsePath_loop].
  - destruct (String.get i s); by apply Hflush.
  - destruct (String.get i s) as [ ch | ]; [ | by apply Hflush ].
    destruct (Ascii.eqb_spec ch ".") as [ -> | Hdot ]; [ apply IH; [ by apply Hflush | done ] | ].
    destruct (Ascii.eqb_spec ch "[") as [ -> | Hbr ].
    + destruct (JS.indexOf s "]" i) as [ j | ]; [ | constructor ].
      destruct (JS.Number_integer _) as [ idx | ]; [ | constructor ].
      apply IH; [ | done ]. apply Forall_app. split; [ by apply Hflush | by repeat constructor ].
    + apply IH; [ done | by apply plain_append ].
Qed.

(** X16. [parsePath] never returns an empty key, nor a key that holds a
    separator ["."] or ["["], whatever the query is. *)
Theorem parsePath_keys (q : string) :
  Forall (fun t => match t with
                   | TKey k => k <> "" /\ plain k = true
                   | TIdx _ => True
                   end) (parsePath q).
Proof.
  unfold parsePath. destruct (negb (truthy q)); [ constructor | ].
  by apply parsePath_loop_keys.
Qed.

(** ** The loop of [buildTree] *)

Lemma buildTree_loop_more f : forall f' st,
  (buildTree_loop f st).2 = [] -> (f <= f')%nat ->
  buildTree_loop f' st = buildTree_loop f st.
Proof.
  induction f as [ | f IH ]; intros f' [h stack] Hend Hle.
  - cbn [buildTree_loop snd] in *. subst stack. by destruct f'.
  - destruct f' as [ | f' ]; [ lia | ]. cbn [buildTree_loop snd fst] in *.
    destruct stack as [ | e stack ]; [ done | ]. apply IH; [ done | lia ].
Qed.

(** X17. The loop of [buildTree] ends on every well-formed document: after
    at most one iteration per object and array of the document, and one for
    a primitive root, the work stack is empty, and further iterations would
    change nothing. The tree returned is then the one that structural
    recursion over the value describes, from the root that the collapse rule
    chose. *)
Theorem buildTree_loop_ends (data : json) (rootKey : string) (fuel : nat) :
  wf_json data ->
  (S (containers (c_value (root_cell data rootKey))) <= fuel)%nat ->
  (buildTree_loop fuel
     ([root_cell data rootKey],
      [(0%nat, c_value (root_cell data rootKey), c_id (root_cell data rootKey))])).2
  = [] /\
  buildTree_loop fuel
    ([root_cell data rootKey],
     [(0%nat, c_value (root_cell data rootKey), c_id (root_cell data rootKey))])
  = buildTree_heap data rootKey /\
  buildTree data rootKey
  = subtree (c_id (root_cell data rootKey)) (c_key (root_cell data rootKey))
            (c_value (root_cell data rootKey)).
Proof.
  intros Hwf Hfuel. pose proof (buildTree_terminates data rootKey Hwf) as Hend.
  assert (buildTree_loop fuel
            ([root_cell data rootKey],
             [(0%nat, c_value (root_cell data rootKey), c_id (root_cell data rootKey))])
          = buildTree_heap data rootKey) as Heq
    by (by apply buildTree_loop_more).
  split; [ by rewrite Heq | split; [ exact Heq | ] ].
  by rewrite (buildTree_subtree _ _ Hwf).
Qed.

Lemma buildTree_loop_ends_witness :
  buildTree doc_flat "root"
  = subtree "$" "root" doc_flat.
Proof.
  destruct (buildTree_loop_ends doc_flat "root" 5 wf_doc_flat) as (_ & _ & H).
  - vm_compute. lia.
  - exact H.
Defined.
